(** * gomatrixserverlib: the events loader ([load.go])

    A shallow embedding of [EventsLoader.LoadAndVerify] and the properties
    of its result collection.

    The loader drives every raw event through four checks.  Parsing is a
    pure function of the raw bytes; the three later checks
    ([VerifyEventSignatures], [VerifyEventAuthChain],
    [VerifyAuthRulesAtState]) reach out to key servers, other homeservers
    and the state store.  The loader is therefore written as a program
    over those three operations ([Prog]), and [run] executes such a
    program against arbitrary stateful implementations of them, recording
    every call with its answer. *)

From Stdlib Require Import Strings.String Numbers.DecimalString Strings.Byte.
From stdpp Require Import base option list.

(** * Part I: the model *)

(** ** Go values *)

(** A Go [error] is a possibly-nil interface value; a non-nil error is
    represented by its message. *)
Definition error : Type := string.

(** [json.RawMessage] is a byte slice. *)
Definition RawMessage : Type := list byte.

(** ** Declarations of the package that live outside [load.go] *)

(** The types [Event], [RoomVersion], [JSONVerifier], [AuthChainProvider]
    and [StateProvider], and [context.Context]. *)
Class ExternalTypes : Type := {
  Event : Type;
  RoomVersion : Type;
  JSONVerifier : Type;
  AuthChainProvider : Type;
  StateProvider : Type;
  Context : Type;
}.

(** Modelled from the spec: the [HeaderedEvent] struct and the [Headered]
    method are declared outside [load.go]; a headered event is "a
    ParsedEvent paired with its ProtocolVersion context". *)
Record HeaderedEvent `{ExternalTypes} : Type := mkHeaderedEvent {
  headerRoomVersion : RoomVersion;
  headerEvent : Event;
}.

Definition Headered `{ExternalTypes} (e : Event) (roomVersion : RoomVersion)
  : HeaderedEvent :=
  {| headerRoomVersion := roomVersion; headerEvent := e |}.

(** The pure functions [load.go] uses and does not declare:
    - [zeroEvent] is [Event{}], what [make([]Event, n)] fills a slice with;
    - [NewEventFromUntrustedJSON(rawEv, roomVer)] returns [(Event, error)];
    - [EventID h] is the method [h.EventID()]. *)
Class Externals `{ExternalTypes} : Type := {
  zeroEvent : Event;
  NewEventFromUntrustedJSON : RawMessage -> RoomVersion -> Event * option error;
  EventID : HeaderedEvent -> string;
}.

(** ** [EventLoadResult] *)

Module EventLoadResult.
Record t `{ExternalTypes} : Type := mk {
  Event : option HeaderedEvent;   (* *HeaderedEvent *)
  Error : option error;           (* error *)
  SoftFail : bool;
}.
End EventLoadResult.
Abbreviation EventLoadResult := EventLoadResult.t.

(** ** [EventsLoader] *)

Record EventsLoader `{ExternalTypes} : Type := mkEventsLoader {
  roomVer : RoomVersion;
  keyRing : JSONVerifier;
  provider : AuthChainProvider;
  stateProvider : StateProvider;
  performSoftFailCheck : bool;
}.

Definition NewEventsLoader `{ExternalTypes} (roomVer : RoomVersion)
    (keyRing : JSONVerifier) (stateProvider : StateProvider)
    (provider : AuthChainProvider) (performSoftFailCheck : bool)
  : EventsLoader :=
  {| roomVer := roomVer;
     keyRing := keyRing;
     provider := provider;
     stateProvider := stateProvider;
     performSoftFailCheck := performSoftFailCheck |}.

(** ** Programs over the collaborators *)

(** A program either returns, panics (Go's run-time panic on an index out
    of range), or calls one of the three collaborators and goes on with
    the answer. *)
Inductive Prog `{ExternalTypes} (A : Type) : Type :=
| Ret (a : A)
| Panic
| CallVerifyEventSignatures
    (ctx : Context) (events : list Event) (keyRing : JSONVerifier)
    (k : list (option error) * option error -> Prog A)
| CallVerifyEventAuthChain
    (ctx : Context) (h : HeaderedEvent) (provider : AuthChainProvider)
    (k : option error -> Prog A)
| CallVerifyAuthRulesAtState
    (ctx : Context) (stateProvider : StateProvider) (h : HeaderedEvent)
    (eventID : string) (strict : bool)
    (k : option error -> Prog A).
Arguments Ret {_ A} a.
Arguments Panic {_ A}.
Arguments CallVerifyEventSignatures {_ A} ctx events keyRing k.
Arguments CallVerifyEventAuthChain {_ A} ctx h provider k.
Arguments CallVerifyAuthRulesAtState {_ A} ctx stateProvider h eventID strict k.

Fixpoint bind `{ExternalTypes} {A B} (p : Prog A) (f : A -> Prog B) : Prog B :=
  match p with
  | Ret a => f a
  | Panic => Panic
  | CallVerifyEventSignatures ctx events kr k =>
      CallVerifyEventSignatures ctx events kr (fun r => bind (k r) f)
  | CallVerifyEventAuthChain ctx h pr k =>
      CallVerifyEventAuthChain ctx h pr (fun r => bind (k r) f)
  | CallVerifyAuthRulesAtState ctx sp h id strict k =>
      CallVerifyAuthRulesAtState ctx sp h id strict (fun r => bind (k r) f)
  end.

#[global] Instance Prog_ret `{ExternalTypes} : MRet Prog := @Ret _.
#[global] Instance Prog_bind `{ExternalTypes} : MBind Prog :=
  fun A B f p => bind p f.

Section Loader.
Context {T : ExternalTypes} {X : Externals}.

(** [VerifyEventSignatures(ctx, events, keyRing)] returns [([]error, error)] *)
Definition VerifyEventSignatures (ctx : Context) (events : list Event)
    (keyRing : JSONVerifier) : Prog (list (option error) * option error) :=
  CallVerifyEventSignatures ctx events keyRing Ret.

(** [VerifyEventAuthChain(ctx, h, provider)] returns [error] *)
Definition VerifyEventAuthChain (ctx : Context) (h : HeaderedEvent)
    (provider : AuthChainProvider) : Prog (option error) :=
  CallVerifyEventAuthChain ctx h provider Ret.

(** [VerifyAuthRulesAtState(ctx, sp, h, eventID, strict)] returns [error] *)
Definition VerifyAuthRulesAtState (ctx : Context)
    (stateProvider : StateProvider) (h : HeaderedEvent) (eventID : string)
    (strict : bool) : Prog (option error) :=
  CallVerifyAuthRulesAtState ctx stateProvider h eventID strict Ret.

(** *** Slices *)

(** [xs[i]]: panics when [i] is out of range. *)
Definition index {A} (xs : list A) (i : nat) : Prog A :=
  match xs !! i with
  | Some x => Ret x
  | None => Panic
  end.

(** [xs[i] = x]: panics when [i] is out of range. *)
Definition assign {A} (xs : list A) (i : nat) (x : A) : Prog (list A) :=
  if decide (i < length xs) then Ret (<[i:=x]> xs) else Panic.

(** [for i := range] over a slice of [n] elements, from index [i] on,
    threading the variables the body updates. *)
Fixpoint rangeLoop {S} (body : nat -> S -> Prog S) (i n : nat) (s : S)
  : Prog S :=
  match n with
  | O => Ret s
  | Datatypes.S n' => s' ← body i s; rangeLoop body (Datatypes.S i) n' s'
  end.

(** *** [LoadAndVerify] *)

(** [EventLoadResult{}] *)
Definition zeroResult : EventLoadResult :=
  {| EventLoadResult.Event := None;
     EventLoadResult.Error := None;
     EventLoadResult.SoftFail := false |}.

(** [EventLoadResult{Error: err}] *)
Definition rejected (err : error) : EventLoadResult :=
  {| EventLoadResult.Event := None;
     EventLoadResult.Error := Some err;
     EventLoadResult.SoftFail := false |}.

(** [EventLoadResult{Event: &h}] *)
Definition accepted (h : HeaderedEvent) : EventLoadResult :=
  {| EventLoadResult.Event := Some h;
     EventLoadResult.Error := None;
     EventLoadResult.SoftFail := false |}.

(** The verb [%d]. *)
Definition fmt_d (n : nat) : string := NilEmpty.string_of_uint (Nat.to_uint n).

(** The [fmt.Errorf] of line 65. *)
Definition lengthMismatch (nfailures nevents : nat) : error :=
  ("gomatrixserverlib: bulk event signature verification length mismatch: "
     ++ fmt_d nfailures ++ " != " ++ fmt_d nevents)%string.

(** Lines 48-58: [for i, rawEv := range rawEvents]. *)
Fixpoint parseLoop (l : EventsLoader) (i : nat) (rawEvents : list RawMessage)
    (results : list EventLoadResult) (events : list Event)
  : Prog (list EventLoadResult * list Event) :=
  match rawEvents with
  | [] => Ret (results, events)
  | rawEv :: rest =>
      let '(event, err) := NewEventFromUntrustedJSON rawEv (roomVer l) in
      match err with
      | Some e =>
          results ← assign results i (rejected e);
          parseLoop l (S i) rest results events           (* continue *)
      | None =>
          events ← assign events i event;
          parseLoop l (S i) rest results events
      end
  end.

(** The pattern that lines 68-75, 78-85 and 88-95 repeat:
    [if err != nil { if results[i].Error == nil { results[i] =
    EventLoadResult{Error: err}; continue } }], followed by the [rest] of
    the loop body. *)
Definition guardStage (err : option error) (i : nat)
    (results : list EventLoadResult) (rest : Prog (list EventLoadResult))
  : Prog (list EventLoadResult) :=
  match err with
  | Some e =>
      r ← index results i;
      match EventLoadResult.Error r with
      | None => assign results i (rejected e)              (* continue *)
      | Some _ => rest                      (* could have failed earlier *)
      end
  | None => rest
  end.

(** Lines 68-98: the body of [for i := range events]. *)
Definition verifyEvent (l : EventsLoader) (ctx : Context)
    (events : list Event) (failures : list (option error))
    (i : nat) (results : list EventLoadResult)
  : Prog (list EventLoadResult) :=
  eventErr ← index failures i;
  guardStage eventErr i results (
    ev ← index events i;
    let h := Headered ev (roomVer l) in
    err ← VerifyEventAuthChain ctx h (provider l);
    guardStage err i results (
      err ← VerifyAuthRulesAtState ctx (stateProvider l) h (EventID h) true;
      guardStage err i results (
        assign results i (accepted h)))).

(** [LoadAndVerify] returns [([]EventLoadResult, error)]; [None] in the
    first component is the nil slice. *)
Definition LoadAndVerify (l : EventsLoader) (ctx : Context)
    (rawEvents : list RawMessage)
  : Prog (option (list EventLoadResult) * option error) :=
  let results := replicate (length rawEvents) zeroResult in
  let events := replicate (length rawEvents) zeroEvent in
  '(results, events) ← parseLoop l 0 rawEvents results events;
  '(failures, err) ← VerifyEventSignatures ctx events (keyRing l);
  match err with
  | Some e => Ret (None, Some e)
  | None =>
      if decide (length failures ≠ length events) then
        Ret (None, Some (lengthMismatch (length failures) (length events)))
      else
        results ← rangeLoop (verifyEvent l ctx events failures)
                            0 (length events) results;
        (* TODO: performSoftFailCheck, needs forward extremity *)
        Ret (Some results, None)
  end.

End Loader.

(** ** Running a program *)

(** One collaborator call as the loader made it, with what it returned. *)
Inductive Call `{ExternalTypes} : Type :=
| SignaturesCall
    (ctx : Context) (events : list Event) (keyRing : JSONVerifier)
    (ret : list (option error) * option error)
| AuthChainCall
    (ctx : Context) (h : HeaderedEvent) (provider : AuthChainProvider)
    (ret : option error)
| AuthRulesAtStateCall
    (ctx : Context) (stateProvider : StateProvider) (h : HeaderedEvent)
    (eventID : string) (strict : bool)
    (ret : option error).

Definition callContext `{ExternalTypes} (c : Call) : Context :=
  match c with
  | SignaturesCall ctx _ _ _ => ctx
  | AuthChainCall ctx _ _ _ => ctx
  | AuthRulesAtStateCall ctx _ _ _ _ _ => ctx
  end.

(** The world the collaborators live in (key servers, remote homeservers,
    the state store, whoever cancels the context) is any type [World];
    each collaborator reads and changes it.  [ctxErr ctx w] is [ctx.Err()]
    in world [w]: non-nil once [ctx] is cancelled. *)
Record Handlers `{ExternalTypes} (World : Type) : Type := {
  onVerifyEventSignatures :
    Context -> list Event -> JSONVerifier -> World ->
    (list (option error) * option error) * World;
  onVerifyEventAuthChain :
    Context -> HeaderedEvent -> AuthChainProvider -> World ->
    option error * World;
  onVerifyAuthRulesAtState :
    Context -> StateProvider -> HeaderedEvent -> string -> bool -> World ->
    option error * World;
  ctxErr : Context -> World -> option error;
}.
Arguments onVerifyEventSignatures {_ World} _.
Arguments onVerifyEventAuthChain {_ World} _.
Arguments onVerifyAuthRulesAtState {_ World} _.
Arguments ctxErr {_ World} _.

(** A logged call, with the world before and after it. *)
Record Step `{ExternalTypes} (World : Type) : Type := mkStep {
  call : Call;
  before : World;
  after : World;
}.
Arguments mkStep {_ World}.
Arguments call {_ World}.
Arguments before {_ World}.
Arguments after {_ World}.

(** [run H p w]: the value [p] returns ([None] when it panics), the final
    world and the calls made, oldest first. *)
Fixpoint run `{ExternalTypes} {World A} (H : Handlers World) (p : Prog A)
    (w : World) : option A * World * list (Step World) :=
  match p with
  | Ret a => (Some a, w, [])
  | Panic => (None, w, [])
  | CallVerifyEventSignatures ctx events kr k =>
      let '(ret, w1) := onVerifyEventSignatures H ctx events kr w in
      let '(a, w2, log) := run H (k ret) w1 in
      (a, w2, mkStep (SignaturesCall ctx events kr ret) w w1 :: log)
  | CallVerifyEventAuthChain ctx h pr k =>
      let '(ret, w1) := onVerifyEventAuthChain H ctx h pr w in
      let '(a, w2, log) := run H (k ret) w1 in
      (a, w2, mkStep (AuthChainCall ctx h pr ret) w w1 :: log)
  | CallVerifyAuthRulesAtState ctx sp h id strict k =>
      let '(ret, w1) := onVerifyAuthRulesAtState H ctx sp h id strict w in
      let '(a, w2, log) := run H (k ret) w1 in
      (a, w2, mkStep (AuthRulesAtStateCall ctx sp h id strict ret) w w1 :: log)
  end.

(** What the call returned, and the calls it made. *)
Definition result `{ExternalTypes} {World A}
    (r : option A * World * list (Step World)) : option A := r.1.1.
Definition steps `{ExternalTypes} {World A}
    (r : option A * World * list (Step World)) : list (Step World) := r.2.
Definition calls `{ExternalTypes} {World A}
    (r : option A * World * list (Step World)) : list Call := call <$> r.2.

(** ** Vocabulary of the properties *)

Section Vocabulary.
Context {T : ExternalTypes} {X : Externals}.

(** What lines 48-58 leave at a position: the parse error, if any, in
    [results]; the parsed event, or the zero value, in [events]. *)
Definition parseError (l : EventsLoader) (rawEv : RawMessage) : option error :=
  (NewEventFromUntrustedJSON rawEv (roomVer l)).2.

Definition resultAfterParse (l : EventsLoader) (rawEv : RawMessage)
  : EventLoadResult :=
  match parseError l rawEv with
  | Some e => rejected e
  | None => zeroResult
  end.

Definition eventAfterParse (l : EventsLoader) (rawEv : RawMessage) : Event :=
  match parseError l rawEv with
  | Some _ => zeroEvent
  | None => (NewEventFromUntrustedJSON rawEv (roomVer l)).1
  end.

(** The calls one iteration of lines 67-99 makes for a position, and the
    result it writes there.  [prior] is the error the position held when
    the iteration began, [fail] its signature verdict, [h] its headered
    event. *)
Definition PositionOutcome (l : EventsLoader) (ctx : Context) (cs : list Call)
    (prior fail : option error) (h : HeaderedEvent) (r : EventLoadResult)
  : Prop :=
  match prior, fail with
  | None, Some e => r = rejected e
  | _, _ =>
      exists c, AuthChainCall ctx h (provider l) c ∈ cs /\
      match prior, c with
      | None, Some e => r = rejected e
      | _, _ =>
          exists s,
            AuthRulesAtStateCall ctx (stateProvider l) h (EventID h) true s ∈ cs /\
            match prior, s with
            | None, Some e => r = rejected e
            | _, _ => r = accepted h
            end
      end
  end.

(** The calls of the second loop: never the batched verifier; always with
    the loader's context and providers, and the state check always in
    strict mode. *)
Definition perEventCall (l : EventsLoader) (ctx : Context) (c : Call) : Prop :=
  match c with
  | SignaturesCall _ _ _ _ => False
  | AuthChainCall ctx' _ pr _ => ctx' = ctx /\ pr = provider l
  | AuthRulesAtStateCall ctx' sp h id strict _ =>
      ctx' = ctx /\ sp = stateProvider l /\ id = EventID h /\ strict = true
  end.

(** The three ways a call can go, read off its run: the batched verifier
    failed as a whole; it answered with the wrong number of verdicts; or
    it answered with one verdict per event and the second loop gave every
    position its outcome. *)
Inductive RunShape {World : Type} (l : EventsLoader) (ctx : Context)
    (rawEvents : list RawMessage)
    (r : option (option (list EventLoadResult) * option error)
         * World * list (Step World)) : Prop :=
| VerifierFailed (failures : list (option error)) (e : error) (w w1 : World) :
    r = (Some (None, Some e), w1,
         [mkStep (SignaturesCall ctx (eventAfterParse l <$> rawEvents)
                                 (keyRing l) (failures, Some e)) w w1]) ->
    RunShape l ctx rawEvents r
| VerdictsMisaligned (failures : list (option error)) (w w1 : World) :
    length failures <> length rawEvents ->
    r = (Some (None, Some (lengthMismatch (length failures) (length rawEvents))),
         w1,
         [mkStep (SignaturesCall ctx (eventAfterParse l <$> rawEvents)
                                 (keyRing l) (failures, None)) w w1]) ->
    RunShape l ctx rawEvents r
| Completed (failures : list (option error)) (w w1 w' : World)
    (results : list EventLoadResult) (log : list (Step World)) :
    length failures = length rawEvents ->
    r = (Some (Some results, None), w',
         mkStep (SignaturesCall ctx (eventAfterParse l <$> rawEvents)
                                (keyRing l) (failures, None)) w w1 :: log) ->
    length results = length rawEvents ->
    (forall j rawEv f,
        rawEvents !! j = Some rawEv -> failures !! j = Some f ->
        exists rj, results !! j = Some rj /\
          PositionOutcome l ctx (call <$> log) (parseError l rawEv) f
            (Headered (eventAfterParse l rawEv) (roomVer l)) rj) ->
    Forall (perEventCall l ctx) (call <$> log) ->
    RunShape l ctx rawEvents r.

(** The result at position [i] is about the raw message at position [i]:
    it accepts that message's event, or it carries an error that one of
    the checks returned for that very event. *)
Definition outcomeOfPosition (l : EventsLoader) (ctx : Context)
    (cs : list Call) (i : nat) (rawEv : RawMessage) (r : EventLoadResult)
  : Prop :=
  let ev := eventAfterParse l rawEv in
  let h := Headered ev (roomVer l) in
  r = accepted h \/
  exists e, r = rejected e /\
    ((exists events failures,
         SignaturesCall ctx events (keyRing l) (failures, None) ∈ cs /\
         events !! i = Some ev /\ failures !! i = Some (Some e)) \/
     AuthChainCall ctx h (provider l) (Some e) ∈ cs \/
     AuthRulesAtStateCall ctx (stateProvider l) h (EventID h) true (Some e) ∈ cs).

(** Exactly one of [Event] and [Error] is set. *)
Definition exactlyOneSet (r : EventLoadResult) : Prop :=
  (EventLoadResult.Event r <> None /\ EventLoadResult.Error r = None) \/
  (EventLoadResult.Event r = None /\ EventLoadResult.Error r <> None).

Definition isSignaturesCall (c : Call) : bool :=
  match c with
  | SignaturesCall _ _ _ _ => true
  | _ => false
  end.

(** A call that is not a lenient state check. *)
Definition strictStateCheck (c : Call) : Prop :=
  match c with
  | AuthRulesAtStateCall _ _ _ _ strict _ => strict = true
  | _ => True
  end.

(** *** Cancellation *)

(** The context of the call was live when the collaborator was entered
    and cancelled when it returned. *)
Definition cancelledDuring {World : Type} (H : Handlers World) (s : Step World)
  : Prop :=
  ctxErr H (callContext (call s)) (before s) = None /\
  ctxErr H (callContext (call s)) (after s) <> None.

(** "When the context is cancelled while any stage's collaborator is in
    flight, the whole call fails and returns an error." *)
Definition CancellationAborts {World : Type} (H : Handlers World)
    (l : EventsLoader) (ctx : Context) (rawEvents : list RawMessage)
    (w : World) : Prop :=
  let r := run H (LoadAndVerify l ctx rawEvents) w in
  Exists (cancelledDuring H) (steps r) ->
  exists e, result r = Some (None, Some e).

(** *** Verdicts *)

(** The batched verifier's verdict for index [j] was [f]. *)
Definition signatureVerdictAt (cs : list Call) (j : nat) (f : option error)
  : Prop :=
  exists ctx events kr failures err,
    SignaturesCall ctx events kr (failures, err) ∈ cs /\ failures !! j = Some f.

(** Whenever the auth chain of [h] was checked, the verdict was [c]. *)
Definition authChainVerdict (cs : list Call) (h : HeaderedEvent)
    (c : option error) : Prop :=
  forall ctx pr c', AuthChainCall ctx h pr c' ∈ cs -> c' = c.

(** Whenever [h] was checked against the state, the verdict was [s]. *)
Definition stateVerdict (cs : list Call) (h : HeaderedEvent)
    (s : option error) : Prop :=
  forall ctx sp id strict s',
    AuthRulesAtStateCall ctx sp h id strict s' ∈ cs -> s' = s.

(** What lines 67-99 make of a position's verdicts. *)
Definition verdictOutcome (prior fail c s : option error) (h : HeaderedEvent)
  : EventLoadResult :=
  match prior, fail, c, s with
  | Some _, _, _, _ => accepted h
  | None, Some e, _, _ => rejected e
  | None, None, Some e, _ => rejected e
  | None, None, None, Some e => rejected e
  | None, None, None, None => accepted h
  end.

(** What a collaborator answered, without what it was asked. *)
Inductive Answer : Type :=
| SignaturesAnswer (ret : list (option error) * option error)
| AuthChainAnswer (ret : option error)
| AuthRulesAtStateAnswer (ret : option error).

Definition answer (c : Call) : Answer :=
  match c with
  | SignaturesCall _ _ _ ret => SignaturesAnswer ret
  | AuthChainCall _ _ _ ret => AuthChainAnswer ret
  | AuthRulesAtStateCall _ _ _ _ _ ret => AuthRulesAtStateAnswer ret
  end.

(** Two programs that make the same kind of call at every step and agree
    on what to do with each answer, though they may ask different
    collaborators about different arguments. *)
Inductive sim {A : Type} : Prog A -> Prog A -> Prop :=
| sim_Ret (a : A) : sim (Ret a) (Ret a)
| sim_Panic : sim Panic Panic
| sim_Signatures ctx1 ctx2 events1 events2 kr1 kr2 k1 k2 :
    (forall ret, sim (k1 ret) (k2 ret)) ->
    sim (CallVerifyEventSignatures ctx1 events1 kr1 k1)
        (CallVerifyEventSignatures ctx2 events2 kr2 k2)
| sim_AuthChain ctx1 ctx2 h1 h2 pr1 pr2 k1 k2 :
    (forall ret, sim (k1 ret) (k2 ret)) ->
    sim (CallVerifyEventAuthChain ctx1 h1 pr1 k1)
        (CallVerifyEventAuthChain ctx2 h2 pr2 k2)
| sim_AuthRulesAtState ctx1 ctx2 sp1 sp2 h1 h2 id1 id2 strict1 strict2 k1 k2 :
    (forall ret, sim (k1 ret) (k2 ret)) ->
    sim (CallVerifyAuthRulesAtState ctx1 sp1 h1 id1 strict1 k1)
        (CallVerifyAuthRulesAtState ctx2 sp2 h2 id2 strict2 k2).

End Vocabulary.

(** ** The second loop, call by call *)

Section LoopVocabulary.
Context {T : ExternalTypes} {X : Externals}.

(** One iteration of lines 67-99, case by case: the calls it makes, in
    order and with their answers, and the result it writes.  [prior] is
    the error the position holds after the parse loop, [fail] its
    signature verdict, [h] its headered event. *)
Inductive IterationCalls (l : EventsLoader) (ctx : Context)
    (prior fail : option error) (h : HeaderedEvent)
  : list Call -> EventLoadResult -> Prop :=
| SignatureRejected (e : error) :
    prior = None -> fail = Some e ->
    IterationCalls l ctx prior fail h [] (rejected e)
| AuthChainRejected (e : error) :
    prior = None -> fail = None ->
    IterationCalls l ctx prior fail h
      [AuthChainCall ctx h (provider l) (Some e)] (rejected e)
| StateRejected (e : error) :
    prior = None -> fail = None ->
    IterationCalls l ctx prior fail h
      [AuthChainCall ctx h (provider l) None;
       AuthRulesAtStateCall ctx (stateProvider l) h (EventID h) true (Some e)]
      (rejected e)
| Passed :
    prior = None -> fail = None ->
    IterationCalls l ctx prior fail h
      [AuthChainCall ctx h (provider l) None;
       AuthRulesAtStateCall ctx (stateProvider l) h (EventID h) true None]
      (accepted h)
| FellThrough (p : error) (c s : option error) :
    prior = Some p ->
    IterationCalls l ctx prior fail h
      [AuthChainCall ctx h (provider l) c;
       AuthRulesAtStateCall ctx (stateProvider l) h (EventID h) true s]
      (accepted h).

(** The whole loop: the calls of the iterations one after the other, and
    one result per position. *)
Inductive LoopCalls (l : EventsLoader) (ctx : Context)
  : list RawMessage -> list (option error) ->
    list Call -> list EventLoadResult -> Prop :=
| LoopCalls_nil : LoopCalls l ctx [] [] [] []
| LoopCalls_cons rawEv rawEvents fail failures cs1 cs r results :
    IterationCalls l ctx (parseError l rawEv) fail
      (Headered (eventAfterParse l rawEv) (roomVer l)) cs1 r ->
    LoopCalls l ctx rawEvents failures cs results ->
    LoopCalls l ctx (rawEv :: rawEvents) (fail :: failures)
              (cs1 ++ cs) (r :: results).

(** A call made with the given context, room version, key ring and
    providers, the state check with the event's own ID and in strict
    mode. *)
Definition callMadeWith (ctx : Context) (roomVer : RoomVersion)
    (keyRing : JSONVerifier) (stateProvider : StateProvider)
    (provider : AuthChainProvider) (c : Call) : Prop :=
  match c with
  | SignaturesCall ctx' _ keyRing' _ => ctx' = ctx /\ keyRing' = keyRing
  | AuthChainCall ctx' h provider' _ =>
      ctx' = ctx /\ provider' = provider /\ headerRoomVersion h = roomVer
  | AuthRulesAtStateCall ctx' stateProvider' h id strict _ =>
      ctx' = ctx /\ stateProvider' = stateProvider /\
      headerRoomVersion h = roomVer /\ id = EventID h /\ strict = true
  end.

(** A call whose answer lets the event through. *)
Definition allClear (c : Call) : Prop :=
  match c with
  | SignaturesCall _ events _ (failures, err) =>
      err = None /\ failures = replicate (length events) None
  | AuthChainCall _ _ _ ret => ret = None
  | AuthRulesAtStateCall _ _ _ _ _ ret => ret = None
  end.

(** The event whose auth chain a call checks. *)
Definition authChainChecked (c : Call) : option HeaderedEvent :=
  match c with
  | AuthChainCall _ h _ _ => Some h
  | _ => None
  end.

(** Does the iteration of a position reach line 78?  Not when its message
    parsed and its signature was rejected. *)
Definition reachesAuthChain (l : EventsLoader)
    (position : RawMessage * option error) : bool :=
  match parseError l position.1, position.2 with
  | None, Some _ => false
  | _, _ => true
  end.

End LoopVocabulary.

(** ** A test bench

    Deterministic stubs for the collaborators, in the manner of the package's
    tests: events are the text of their JSON, a raw message parses when it
    opens with a brace, and each verdict is looked up from the event. *)

Module Bench.

Definition types : ExternalTypes :=
  {| Event := string;
     RoomVersion := string;
     JSONVerifier := unit;
     AuthChainProvider := unit;
     StateProvider := unit;
     Context := unit |}.

Definition parse (rawEv : RawMessage) (roomVer : string)
  : string * option error :=
  match rawEv with
  | "{"%byte :: _ => (string_of_list_byte rawEv, None)
  | _ => (""%string, Some "invalid character looking for beginning of value"%string)
  end.

Definition externals : @Externals types :=
  {| zeroEvent := ""%string : @Event types;
     NewEventFromUntrustedJSON := parse : RawMessage -> @RoomVersion types -> _;
     EventID := fun h => ("$" ++ @headerEvent types h)%string |}.

Definition raw (s : string) : RawMessage := list_byte_of_string s.

Definition loader : @EventsLoader types :=
  @NewEventsLoader types "10"%string tt tt tt false.

Definition signatureStub (ev : string) : option error :=
  if String.eqb ev "" then Some "event is missing signatures"%string
  else if String.eqb ev "{forged}" then Some "bad signature"%string
  else None.

Definition authChainStub (h : @HeaderedEvent types) : option error :=
  if String.eqb (@headerEvent types h) "" then Some "missing auth events"%string
  else if String.eqb (@headerEvent types h) "{unauthorised}"
       then Some "not allowed by auth chain"%string
  else None.

Definition stateStub (h : @HeaderedEvent types) : option error :=
  if String.eqb (@headerEvent types h) "{forbidden}"
  then Some "not allowed by state"%string
  else None.

(** The world of the bench: has the context been cancelled? *)
Definition Canceled : error := "context canceled"%string.

Definition cancellation (ctx : unit) (cancelled : bool) : option error :=
  if cancelled then Some Canceled else None.

(** Well-behaved collaborators. *)
Definition handlers : @Handlers types bool :=
  {| onVerifyEventSignatures := fun _ events _ w =>
       ((signatureStub <$> events, None), w);
     onVerifyEventAuthChain := fun _ h _ w => (authChainStub h, w);
     onVerifyAuthRulesAtState := fun _ _ h _ _ w => (stateStub h, w);
     ctxErr := cancellation |}.

(** A batched verifier that drops its last verdict. *)
Definition shortHandlers : @Handlers types bool :=
  {| onVerifyEventSignatures := fun _ events _ w =>
       ((removelast (signatureStub <$> events), None), w);
     onVerifyEventAuthChain := fun _ h _ w => (authChainStub h, w);
     onVerifyAuthRulesAtState := fun _ _ h _ _ w => (stateStub h, w);
     ctxErr := cancellation |}.

(** A state provider so slow that the context is cancelled while it is
    being asked; the check gives up with the context's error. *)
Definition slowStateHandlers : @Handlers types bool :=
  {| onVerifyEventSignatures := fun _ events _ w =>
       ((signatureStub <$> events, None), w);
     onVerifyEventAuthChain := fun _ h _ w => (authChainStub h, w);
     onVerifyAuthRulesAtState := fun _ _ _ _ _ _ => (Some Canceled, true);
     ctxErr := cancellation |}.

(** A key server so slow that the context is cancelled during the batched
    call, which fails as a whole. *)
Definition slowKeysHandlers : @Handlers types bool :=
  {| onVerifyEventSignatures := fun _ events _ _ => (([], Some Canceled), true);
     onVerifyEventAuthChain := fun _ h _ w => (authChainStub h, w);
     onVerifyAuthRulesAtState := fun _ _ h _ _ w => (stateStub h, w);
     ctxErr := cancellation |}.

(** The step of a run against [slowStateHandlers] in which the context
    is cancelled: the state check of the event ["{ok}"]. *)
Definition cancelledStateCheck : @Step types bool :=
  mkStep (@AuthRulesAtStateCall types tt tt
            (@Headered types "{ok}"%string "10"%string)
            "${ok}"%string true (Some Canceled))
         false true.

Definition loadAndVerify (H : @Handlers types bool) (rawEvents : list RawMessage)
  : option (option (list (@EventLoadResult types)) * option error)
    * bool * list (@Step types bool) :=
  run H (@LoadAndVerify types externals loader tt rawEvents) false.

End Bench.

(** * Part II: properties *)

Section Execution.
Context {T : ExternalTypes} {X : Externals} {World : Type} (H : Handlers World).

Implicit Types (w : World) (l : EventsLoader) (ctx : Context).
Implicit Types (results : list EventLoadResult) (events : list Event).
Implicit Types (failures : list (option error)).

(** ** The interpreter and the monad *)

Lemma run_bind {A B} (p : Prog A) (f : A -> Prog B) w :
  run H (p ≫= f) w =
    match run H p w with
    | (Some a, w1, log1) =>
        let '(b, w2, log2) := run H (f a) w1 in (b, w2, log1 ++ log2)
    | (None, w1, log1) => (None, w1, log1)
    end.
Proof.
  revert w. induction p as [a| |c evs kr k IH|c h pr k IH|c sp h id st k IH];
    intros w; cbn.
  - destruct (run H (f a) w) as [[b w2] log2]. reflexivity.
  - reflexivity.
  - destruct (onVerifyEventSignatures H c evs kr w) as [ret w1].
    change (bind (k ret) f) with (k ret ≫= f). rewrite IH.
    destruct (run H (k ret) w1) as [[[a|] w2] log1]; [|reflexivity].
    destruct (run H (f a) w2) as [[b w3] log2]. reflexivity.
  - destruct (onVerifyEventAuthChain H c h pr w) as [ret w1].
    change (bind (k ret) f) with (k ret ≫= f). rewrite IH.
    destruct (run H (k ret) w1) as [[[a|] w2] log1]; [|reflexivity].
    destruct (run H (f a) w2) as [[b w3] log2]. reflexivity.
  - destruct (onVerifyAuthRulesAtState H c sp h id st w) as [ret w1].
    change (bind (k ret) f) with (k ret ≫= f). rewrite IH.
    destruct (run H (k ret) w1) as [[[a|] w2] log1]; [|reflexivity].
    destruct (run H (f a) w2) as [[b w3] log2]. reflexivity.
Qed.

Lemma run_index {A} (xs : list A) i x w :
  xs !! i = Some x -> run H (index xs i) w = (Some x, w, []).
Proof. intros E. unfold index. rewrite E. reflexivity. Qed.

Lemma run_assign {A} (xs : list A) i x w :
  i < length xs -> run H (assign xs i x) w = (Some (<[i:=x]> xs), w, []).
Proof. intros Hi. unfold assign. rewrite decide_True by exact Hi. reflexivity. Qed.

Lemma run_VerifyEventSignatures ctx events kr w :
  run H (VerifyEventSignatures ctx events kr) w =
    let '(ret, w1) := onVerifyEventSignatures H ctx events kr w in
    (Some ret, w1, [mkStep (SignaturesCall ctx events kr ret) w w1]).
Proof. cbn. destruct (onVerifyEventSignatures _ _ _ _ _). reflexivity. Qed.

Lemma run_VerifyEventAuthChain ctx h pr w :
  run H (VerifyEventAuthChain ctx h pr) w =
    let '(ret, w1) := onVerifyEventAuthChain H ctx h pr w in
    (Some ret, w1, [mkStep (AuthChainCall ctx h pr ret) w w1]).
Proof. cbn. destruct (onVerifyEventAuthChain _ _ _ _ _). reflexivity. Qed.

Lemma run_VerifyAuthRulesAtState ctx sp h id strict w :
  run H (VerifyAuthRulesAtState ctx sp h id strict) w =
    let '(ret, w1) := onVerifyAuthRulesAtState H ctx sp h id strict w in
    (Some ret, w1, [mkStep (AuthRulesAtStateCall ctx sp h id strict ret) w w1]).
Proof. cbn. destruct (onVerifyAuthRulesAtState _ _ _ _ _ _ _). reflexivity. Qed.

(** ** Stage 1: the parse loop *)

Lemma insert_middle {A} (pre post : list A) i x y :
  i = length pre -> <[i:=x]> (pre ++ y :: post) = (pre ++ [x]) ++ post.
Proof.
  intros ->. rewrite <- app_assoc. cbn.
  rewrite insert_app_r_alt by lia. rewrite Nat.sub_diag. reflexivity.
Qed.

(** The loop never panics, calls no collaborator, and fills the two
    slices position by position. *)
Lemma run_parseLoop l w rest : forall i doneR doneE,
  length doneR = i -> length doneE = i ->
  run H (parseLoop l i rest
           (doneR ++ replicate (length rest) zeroResult)
           (doneE ++ replicate (length rest) zeroEvent)) w =
    (Some (doneR ++ (resultAfterParse l <$> rest),
           doneE ++ (eventAfterParse l <$> rest)), w, []).
Proof.
  induction rest as [|rawEv rest IH]; intros i doneR doneE Hr He; cbn.
  - rewrite !app_nil_r. reflexivity.
  - unfold resultAfterParse, eventAfterParse, parseError.
    destruct (NewEventFromUntrustedJSON rawEv (roomVer l)) as [event [e|]]; cbn;
      change (bind ?p ?f) with (p ≫= f);
      rewrite run_bind, run_assign by (rewrite length_app; cbn; lia);
      rewrite insert_middle by congruence.
    + rewrite (cons_middle zeroEvent), app_assoc.
      rewrite IH by (rewrite length_app; cbn; lia).
      rewrite <- !app_assoc. reflexivity.
    + rewrite (cons_middle zeroResult), app_assoc.
      rewrite IH by (rewrite length_app; cbn; lia).
      rewrite <- !app_assoc. reflexivity.
Qed.

(** The loop reads nothing of the loader but its room version. *)
Lemma parseLoop_roomVer l l' rest : forall i results events,
  roomVer l = roomVer l' ->
  parseLoop l i rest results events = parseLoop l' i rest results events.
Proof.
  induction rest as [|rawEv rest IH]; intros i results events Hv; cbn;
    [reflexivity|].
  rewrite <- Hv.
  destruct (NewEventFromUntrustedJSON rawEv (roomVer l)) as [event [e|]];
    unfold assign; case_decide; cbn; auto.
Qed.

(** ** Stages 2 to 4 at one position *)

(** A guarded stage either writes the stage's error and ends the
    iteration, which needs an error from the stage and none recorded
    before, or goes on with the rest of the body. *)
Lemma run_guardStage err i results rest w r0 :
  results !! i = Some r0 ->
  run H (guardStage err i results rest) w =
    match EventLoadResult.Error r0, err with
    | None, Some e => (Some (<[i:=rejected e]> results), w, [])
    | _, _ => run H rest w
    end.
Proof.
  intros Hr. unfold guardStage. destruct err as [e|].
  - rewrite run_bind, (run_index _ _ _ _ Hr).
    destruct (EventLoadResult.Error r0).
    + destruct (run H rest w) as [[? ?] ?]. reflexivity.
    + rewrite run_assign by (eapply lookup_lt_Some; eassumption). reflexivity.
  - destruct (EventLoadResult.Error r0); reflexivity.
Qed.

Lemma PositionOutcome_mono l ctx cs cs' prior fail h r :
  cs ⊆ cs' ->
  PositionOutcome l ctx cs prior fail h r ->
  PositionOutcome l ctx cs' prior fail h r.
Proof.
  intros Hsub. unfold PositionOutcome.
  assert (Hstate : forall q,
    (exists s, AuthRulesAtStateCall ctx (stateProvider l) h (EventID h) true s ∈ cs /\ q s) ->
    (exists s, AuthRulesAtStateCall ctx (stateProvider l) h (EventID h) true s ∈ cs' /\ q s)).
  { intros q [s [Hs Hq]]. exists s. split; [apply Hsub, Hs|exact Hq]. }
  destruct prior as [p|], fail as [f|]; try tauto;
    intros [c [Hc Hrest]]; exists c; (split; [apply Hsub, Hc|]);
    destruct c as [e|]; auto.
Qed.

Lemma run_verifyEvent l ctx events failures i results w f r0 ev :
  failures !! i = Some f ->
  results !! i = Some r0 ->
  events !! i = Some ev ->
  exists r w' log,
    run H (verifyEvent l ctx events failures i results) w
      = (Some (<[i:=r]> results), w', log) /\
    PositionOutcome l ctx (call <$> log) (EventLoadResult.Error r0) f
                    (Headered ev (roomVer l)) r /\
    Forall (perEventCall l ctx) (call <$> log).
Proof.
  intros Hf Hr He. unfold verifyEvent, PositionOutcome.
  rewrite run_bind, (run_index _ _ _ _ Hf).
  set (h := Headered ev (roomVer l)).
  rewrite (run_guardStage _ _ _ _ _ _ Hr).
  rewrite !run_bind, (run_index _ _ _ _ He), run_bind, run_VerifyEventAuthChain.
  fold h.
  destruct (onVerifyEventAuthChain H ctx h (provider l) w) as [c w1].
  rewrite (run_guardStage _ _ _ _ _ _ Hr).
  rewrite run_bind, run_VerifyAuthRulesAtState.
  destruct (onVerifyAuthRulesAtState H ctx (stateProvider l) h (EventID h) true w1)
    as [s w2].
  rewrite (run_guardStage _ _ _ _ _ _ Hr).
  rewrite run_assign by (eapply lookup_lt_Some; eassumption).
  destruct (EventLoadResult.Error r0) as [p|], f as [e1|], c as [e2|], s as [e3|];
    cbn; eexists _, _, _; (split; [reflexivity|]);
    (split; [|repeat constructor]);
    repeat first [reflexivity | eexists; split; [apply list_elem_of_In; cbn; tauto|]].
Qed.

(** ** The second loop *)

(** Invariant of [for i := range events]: the loop never panics; the
    positions before [i] are left alone; every position from [i] on
    receives the outcome of its own iteration. *)
Lemma run_verifyLoop l ctx events failures : forall n i results w,
  i + n = length results ->
  length events = length results ->
  length failures = length results ->
  exists results' w' log,
    run H (rangeLoop (verifyEvent l ctx events failures) i n results) w
      = (Some results', w', log) /\
    length results' = length results /\
    (forall j, j < i -> results' !! j = results !! j) /\
    (forall j r0 f ev,
        i <= j -> results !! j = Some r0 -> failures !! j = Some f ->
        events !! j = Some ev ->
        exists r, results' !! j = Some r /\
          PositionOutcome l ctx (call <$> log) (EventLoadResult.Error r0) f
                          (Headered ev (roomVer l)) r) /\
    Forall (perEventCall l ctx) (call <$> log).
Proof.
  induction n as [|n IH]; intros i results w Hn He Hf.
  - exists results, w, []. cbn. repeat split; auto.
    intros j r0 f ev Hij Hj. apply lookup_lt_Some in Hj. lia.
  - destruct (lookup_lt_is_Some_2 results i) as [r0 Hr0]; [lia|].
    destruct (lookup_lt_is_Some_2 failures i) as [f0 Hf0]; [lia|].
    destruct (lookup_lt_is_Some_2 events i) as [ev0 Hev0]; [lia|].
    destruct (run_verifyEvent l ctx events failures i results w f0 r0 ev0
                Hf0 Hr0 Hev0) as (r & w1 & log1 & Hrun & Hout & Hcalls).
    destruct (IH (S i) (<[i:=r]> results) w1) as
      (results' & w' & log2 & Hrun2 & Hlen & Hbefore & Hafter & Hcalls2);
      rewrite ?length_insert; try lia.
    exists results', w', (log1 ++ log2).
    cbn [rangeLoop]. rewrite run_bind, Hrun, Hrun2.
    rewrite length_insert in Hlen. rewrite fmap_app.
    split; [reflexivity|]. split; [exact Hlen|]. split; [|split].
    + intros j Hj. rewrite Hbefore by lia. apply list_lookup_insert_ne. lia.
    + intros j r1 f ev Hij Hj Hfj Hev.
      destruct (decide (j = i)) as [->|Hne].
      * exists r. split.
        -- rewrite Hbefore by lia. apply list_lookup_insert_eq.
           eapply lookup_lt_Some; eassumption.
        -- assert (r1 = r0) by congruence. assert (f = f0) by congruence.
           assert (ev = ev0) by congruence. subst.
           eapply PositionOutcome_mono; [|exact Hout].
           intros c Hc. apply elem_of_app. left. exact Hc.
      * destruct (Hafter j r1 f ev) as (r' & Hr' & Hout'); auto; [lia| |].
        -- rewrite list_lookup_insert_ne by lia. exact Hj.
        -- exists r'. split; [exact Hr'|].
           eapply PositionOutcome_mono; [|exact Hout'].
           intros c Hc. apply elem_of_app. right. exact Hc.
    + apply Forall_app. split; assumption.
Qed.

(** ** The whole call *)

(** The anatomy of a run: one batched call on the parsed-or-placeholder
    events, whose answer decides between the two aborts and the second
    loop. *)
Lemma run_LoadAndVerify l ctx rawEvents w :
  let events := eventAfterParse l <$> rawEvents in
  let '(ret, w1) := onVerifyEventSignatures H ctx events (keyRing l) w in
  let sigStep := mkStep (SignaturesCall ctx events (keyRing l) ret) w w1 in
  match ret with
  | (failures, Some e) =>
      run H (LoadAndVerify l ctx rawEvents) w
        = (Some (None, Some e), w1, [sigStep])
  | (failures, None) =>
      if decide (length failures = length rawEvents) then
        exists results w' log,
          run H (LoadAndVerify l ctx rawEvents) w
            = (Some (Some results, None), w', sigStep :: log) /\
          length results = length rawEvents /\
          (forall j rawEv f,
              rawEvents !! j = Some rawEv -> failures !! j = Some f ->
              exists r, results !! j = Some r /\
                PositionOutcome l ctx (call <$> log) (parseError l rawEv) f
                  (Headered (eventAfterParse l rawEv) (roomVer l)) r) /\
          Forall (perEventCall l ctx) (call <$> log)
      else
        run H (LoadAndVerify l ctx rawEvents) w
          = (Some (None,
                   Some (lengthMismatch (length failures) (length rawEvents))),
             w1, [sigStep])
  end.
Proof.
  intros events. unfold LoadAndVerify.
  rewrite run_bind.
  pose proof (run_parseLoop l w rawEvents 0 [] [] eq_refl eq_refl) as Hparse.
  cbn [app] in Hparse. rewrite Hparse. fold events.
  rewrite run_bind, run_VerifyEventSignatures.
  destruct (onVerifyEventSignatures H ctx events (keyRing l) w)
    as [[failures [e|]] w1]; [reflexivity|].
  assert (Hlen : length events = length rawEvents)
    by (unfold events; apply length_fmap).
  rewrite Hlen.
  destruct (decide (length failures = length rawEvents)) as [Hfl|Hfl].
  - rewrite decide_False by tauto.
    destruct (run_verifyLoop l ctx events failures (length rawEvents) 0
                (resultAfterParse l <$> rawEvents) w1)
      as (results & w' & log & Hrun & Hrl & _ & Hpos & Hcalls);
      rewrite ?length_fmap; try lia.
    exists results, w', log.
    rewrite run_bind, Hrun. cbn. rewrite app_nil_r, length_fmap in *.
    split; [reflexivity|]. split; [exact Hrl|]. split; [|exact Hcalls].
    intros j rawEv f Hj Hf.
    destruct (Hpos j (resultAfterParse l rawEv) f (eventAfterParse l rawEv))
      as (r & Hr & Hout); auto; [lia| | |].
    + rewrite list_lookup_fmap, Hj. reflexivity.
    + unfold events. rewrite list_lookup_fmap, Hj. reflexivity.
    + exists r. split; [exact Hr|].
      replace (parseError l rawEv)
        with (EventLoadResult.Error (resultAfterParse l rawEv)); [exact Hout|].
      unfold resultAfterParse. destruct (parseError l rawEv); reflexivity.
  - rewrite decide_True by exact Hfl. reflexivity.
Qed.

Lemma LoadAndVerify_shape l ctx rawEvents w :
  RunShape l ctx rawEvents (run H (LoadAndVerify l ctx rawEvents) w).
Proof.
  pose proof (run_LoadAndVerify l ctx rawEvents w) as Hrun. cbv zeta in Hrun.
  destruct (onVerifyEventSignatures H ctx (eventAfterParse l <$> rawEvents)
              (keyRing l) w) as [[failures [e|]] w1].
  - eapply VerifierFailed. exact Hrun.
  - destruct (decide (length failures = length rawEvents)) as [Hlen|Hlen].
    + destruct Hrun as (results & w' & log & Hrun & Hrl & Hpos & Hcalls).
      eapply Completed; eassumption.
    + eapply VerdictsMisaligned; eassumption.
Qed.

(** In the second loop's log there is no call of the batched verifier. *)
Lemma perEventCall_not_signatures l ctx (cs : list Call) c e k ret :
  Forall (perEventCall l ctx) cs -> SignaturesCall c e k ret ∈ cs -> False.
Proof.
  intros Hall Hin. rewrite Forall_forall in Hall. exact (Hall _ Hin).
Qed.

(** What an iteration writes is a rejection or an acceptance. *)
Lemma PositionOutcome_inv l ctx cs prior fail h r :
  PositionOutcome l ctx cs prior fail h r ->
  r = accepted h \/ exists e, r = rejected e.
Proof.
  unfold PositionOutcome.
  destruct prior as [p|], fail as [f|]; eauto;
    intros [[c|] [_ Hc]]; eauto; destruct Hc as [[s|] [_ Hs]]; eauto.
Qed.

(** A position that failed to parse goes through every guard and ends at
    line 96, which replaces its parse error by an accepted event. *)
Lemma PositionOutcome_prior l ctx cs p fail h r :
  PositionOutcome l ctx cs (Some p) fail h r -> r = accepted h.
Proof.
  unfold PositionOutcome.
  destruct fail as [f|]; intros [[c|] [_ [[s|] [_ Hs]]]]; exact Hs.
Qed.

(** The log of a call: the batched verifier first, on the loader's
    context and key ring and on the parsed-or-placeholder events, and
    then per-event calls only. *)
Lemma LoadAndVerify_calls l ctx rawEvents w :
  exists ret rest,
    calls (run H (LoadAndVerify l ctx rawEvents) w)
      = SignaturesCall ctx (eventAfterParse l <$> rawEvents) (keyRing l) ret
          :: rest /\
    Forall (perEventCall l ctx) rest.
Proof.
  destruct (LoadAndVerify_shape l ctx rawEvents w)
    as [failures e w0 w1 Hr|failures w0 w1 Hlen Hr
       |failures w0 w1 w' results log Hlen Hr Hrl Hpos Hcalls];
    rewrite Hr; unfold calls; cbn; eexists _, _; split;
    try reflexivity; try constructor; assumption.
Qed.

Lemma filter_perEventCall l ctx (cs : list Call) :
  Forall (perEventCall l ctx) cs -> List.filter isSignaturesCall cs = [].
Proof.
  induction 1 as [|c cs Hc _ IH]; [reflexivity|].
  cbn. destruct c; cbn in *; [contradiction|exact IH|exact IH].
Qed.

End Execution.

(** ** A position's outcome is a function of its verdicts *)

Section Verdicts.
Context {T : ExternalTypes} {X : Externals}.

Lemma PositionOutcome_verdicts l ctx (cs : list Call) prior fail h r c s :
  PositionOutcome l ctx cs prior fail h r ->
  authChainVerdict cs h c ->
  stateVerdict cs h s ->
  r = verdictOutcome prior fail c s h.
Proof.
  unfold PositionOutcome, authChainVerdict, stateVerdict.
  intros Hout Hc Hs.
  assert (Hchain : forall c', AuthChainCall ctx h (provider l) c' ∈ cs -> c' = c)
    by (intros c'; apply Hc).
  assert (Hstate : forall s',
    AuthRulesAtStateCall ctx (stateProvider l) h (EventID h) true s' ∈ cs -> s' = s)
    by (intros s'; apply Hs).
  clear Hc Hs.
  destruct prior as [p|], fail as [f|]; cbn; try exact Hout;
    destruct Hout as [c' [Hc' Hout]]; apply Hchain in Hc'; subst c';
    destruct c as [e|]; try exact Hout;
    destruct Hout as [s' [Hs' Hout]]; apply Hstate in Hs'; subst s';
    destruct s as [e'|]; exact Hout.
Qed.

(** ** Programs that differ only in what they ask *)

Lemma sim_refl {A} (p : Prog A) : sim p p.
Proof. induction p; constructor; auto. Qed.

Lemma sim_bind {A B} (p1 p2 : Prog A) (f1 f2 : A -> Prog B) :
  sim p1 p2 -> (forall a, sim (f1 a) (f2 a)) -> sim (p1 ≫= f1) (p2 ≫= f2).
Proof.
  intros Hp Hf. induction Hp; cbn; auto; constructor; auto.
Qed.

Lemma sim_rangeLoop {S} (body1 body2 : nat -> S -> Prog S) n :
  (forall i s, sim (body1 i s) (body2 i s)) ->
  forall i s, sim (rangeLoop body1 i n s) (rangeLoop body2 i n s).
Proof.
  intros Hbody. induction n as [|n IH]; intros i s; cbn [rangeLoop].
  - constructor.
  - apply sim_bind; [apply Hbody|]. intros s'. apply IH.
Qed.

Lemma sim_guardStage err i results (rest1 rest2 : Prog (list EventLoadResult)) :
  sim rest1 rest2 ->
  sim (guardStage err i results rest1) (guardStage err i results rest2).
Proof.
  intros Hrest. unfold guardStage. destruct err as [e|]; [|exact Hrest].
  apply sim_bind; [apply sim_refl|].
  intros r. destruct (EventLoadResult.Error r); [exact Hrest|apply sim_refl].
Qed.

Lemma sim_verifyEvent l1 l2 ctx1 ctx2 events failures i results :
  roomVer l1 = roomVer l2 ->
  sim (verifyEvent l1 ctx1 events failures i results)
      (verifyEvent l2 ctx2 events failures i results).
Proof.
  intros Hv. unfold verifyEvent. rewrite <- Hv.
  apply sim_bind; [apply sim_refl|]. intros eventErr.
  apply sim_guardStage.
  apply sim_bind; [apply sim_refl|]. intros ev.
  apply sim_bind; [constructor; intros; apply sim_refl|]. intros err.
  apply sim_guardStage.
  apply sim_bind; [constructor; intros; apply sim_refl|]. intros err'.
  apply sim_guardStage. apply sim_refl.
Qed.

Lemma sim_LoadAndVerify l1 l2 ctx1 ctx2 rawEvents :
  roomVer l1 = roomVer l2 ->
  sim (LoadAndVerify l1 ctx1 rawEvents) (LoadAndVerify l2 ctx2 rawEvents).
Proof.
  intros Hv. unfold LoadAndVerify.
  rewrite (parseLoop_roomVer l1 l2) by exact Hv.
  apply sim_bind; [apply sim_refl|]. intros [results events].
  apply sim_bind; [constructor; intros; apply sim_refl|].
  intros [failures [e|]]; [apply sim_refl|].
  case_decide; [apply sim_refl|].
  apply sim_bind; [|intros; apply sim_refl].
  apply sim_rangeLoop. intros i s. apply sim_verifyEvent. exact Hv.
Qed.

(** Two runs of such programs that receive the same answers return the
    same value, whatever the worlds they ran in. *)
Lemma sim_run {A World1 World2} (H1 : Handlers World1) (H2 : Handlers World2)
    (p1 p2 : Prog A) :
  sim p1 p2 ->
  forall w1 w2,
    answer <$> calls (run H1 p1 w1) = answer <$> calls (run H2 p2 w2) ->
    result (run H1 p1 w1) = result (run H2 p2 w2).
Proof.
  unfold calls, result.
  induction 1 as [a| |c1 c2 e1 e2 k1 k2 f1 f2 _ IH|c1 c2 h1 h2 p1 p2 f1 f2 _ IH
                 |c1 c2 s1 s2 h1 h2 i1 i2 b1 b2 f1 f2 _ IH];
    intros w1 w2; cbn; try reflexivity.
  - destruct (onVerifyEventSignatures H1 c1 e1 k1 w1) as [ret1 w1'].
    destruct (onVerifyEventSignatures H2 c2 e2 k2 w2) as [ret2 w2'].
    specialize (IH ret1 w1' w2').
    destruct (run H1 (f1 ret1) w1') as [[a1 u1] log1].
    destruct (run H2 (f2 ret2) w2') as [[a2 u2] log2] eqn:E2.
    cbn. intros Heq. injection Heq as Hret Hrest. subst ret2.
    rewrite E2 in IH. apply IH, Hrest.
  - destruct (onVerifyEventAuthChain H1 c1 h1 p1 w1) as [ret1 w1'].
    destruct (onVerifyEventAuthChain H2 c2 h2 p2 w2) as [ret2 w2'].
    specialize (IH ret1 w1' w2').
    destruct (run H1 (f1 ret1) w1') as [[a1 u1] log1].
    destruct (run H2 (f2 ret2) w2') as [[a2 u2] log2] eqn:E2.
    cbn. intros Heq. injection Heq as Hret Hrest. subst ret2.
    rewrite E2 in IH. apply IH, Hrest.
  - destruct (onVerifyAuthRulesAtState H1 c1 s1 h1 i1 b1 w1) as [ret1 w1'].
    destruct (onVerifyAuthRulesAtState H2 c2 s2 h2 i2 b2 w2) as [ret2 w2'].
    specialize (IH ret1 w1' w2').
    destruct (run H1 (f1 ret1) w1') as [[a1 u1] log1].
    destruct (run H2 (f2 ret2) w2') as [[a2 u2] log2] eqn:E2.
    cbn. intros Heq. injection Heq as Hret Hrest. subst ret2.
    rewrite E2 in IH. apply IH, Hrest.
Qed.

End Verdicts.

(** ** The second loop, call by call *)

Section ExactLog.
Context {T : ExternalTypes} {X : Externals} {World : Type} (H : Handlers World).

Implicit Types (w : World) (l : EventsLoader) (ctx : Context).
Implicit Types (results : list EventLoadResult) (events : list Event).
Implicit Types (failures : list (option error)).

Lemma run_verifyEvent_exact l ctx events failures i results w f r0 ev :
  failures !! i = Some f ->
  results !! i = Some r0 ->
  events !! i = Some ev ->
  exists r w' log,
    run H (verifyEvent l ctx events failures i results) w
      = (Some (<[i:=r]> results), w', log) /\
    IterationCalls l ctx (EventLoadResult.Error r0) f
                   (Headered ev (roomVer l)) (call <$> log) r.
Proof.
  intros Hf Hr He. unfold verifyEvent.
  rewrite run_bind, (run_index _ _ _ _ _ Hf).
  set (h := Headered ev (roomVer l)).
  rewrite (run_guardStage _ _ _ _ _ _ _ Hr).
  rewrite !run_bind, (run_index _ _ _ _ _ He), run_bind, run_VerifyEventAuthChain.
  fold h.
  destruct (onVerifyEventAuthChain H ctx h (provider l) w) as [c w1].
  rewrite (run_guardStage _ _ _ _ _ _ _ Hr).
  rewrite run_bind, run_VerifyAuthRulesAtState.
  destruct (onVerifyAuthRulesAtState H ctx (stateProvider l) h (EventID h) true w1)
    as [s w2].
  rewrite (run_guardStage _ _ _ _ _ _ _ Hr).
  rewrite run_assign by (eapply lookup_lt_Some; eassumption).
  destruct (EventLoadResult.Error r0) as [p|], f as [e1|], c as [e2|], s as [e3|];
    cbn; eexists _, _, _; (split; [reflexivity|]);
    solve [econstructor; reflexivity].
Qed.

Lemma run_verifyLoop_exact l ctx rest : forall restF doneR doneE doneF w,
  length restF = length rest ->
  length doneE = length doneR ->
  length doneF = length doneR ->
  exists rs w' log,
    run H (rangeLoop
             (verifyEvent l ctx (doneE ++ (eventAfterParse l <$> rest))
                          (doneF ++ restF))
             (length doneR) (length rest)
             (doneR ++ (resultAfterParse l <$> rest))) w
      = (Some (doneR ++ rs), w', log) /\
    LoopCalls l ctx rest restF (call <$> log) rs.
Proof.
  induction rest as [|rawEv rest IH]; intros restF doneR doneE doneF w HF HE HD.
  - destruct restF; [|discriminate]. exists [], w, []. cbn. split; constructor.
  - destruct restF as [|f restF]; [discriminate|]. cbn in HF.
    cbn [rangeLoop length fmap list_fmap].
    destruct (run_verifyEvent_exact l ctx
                (doneE ++ eventAfterParse l rawEv :: (eventAfterParse l <$> rest))
                (doneF ++ f :: restF) (length doneR)
                (doneR ++ resultAfterParse l rawEv :: (resultAfterParse l <$> rest))
                w f (resultAfterParse l rawEv) (eventAfterParse l rawEv))
      as (r & w1 & log1 & Hrun & Hit).
    { rewrite <- HD. apply list_lookup_middle. reflexivity. }
    { apply list_lookup_middle. reflexivity. }
    { rewrite <- HE. apply list_lookup_middle. reflexivity. }
    rewrite run_bind, Hrun.
    rewrite insert_middle by reflexivity.
    rewrite (cons_middle (eventAfterParse l rawEv)), (cons_middle f), !app_assoc.
    destruct (IH restF (doneR ++ [r]) (doneE ++ [eventAfterParse l rawEv])
                (doneF ++ [f]) w1)
      as (rs & w' & log2 & Hrun2 & Hloop);
      rewrite ?length_app; cbn; try lia.
    rewrite length_app in Hrun2. cbn [length] in Hrun2.
    replace (length doneR + 1) with (S (length doneR)) in Hrun2 by lia.
    rewrite Hrun2.
    exists (r :: rs), w', (log1 ++ log2).
    split; [rewrite <- app_assoc; reflexivity|].
    rewrite fmap_app. constructor; [|exact Hloop].
    replace (parseError l rawEv)
      with (EventLoadResult.Error (resultAfterParse l rawEv)); [exact Hit|].
    unfold resultAfterParse. destruct (parseError l rawEv); reflexivity.
Qed.

(** A call that returns results made the batched call, got one verdict
    per event and no error, and then ran the loop. *)
Lemma LoadAndVerify_exact l ctx rawEvents w results err :
  result (run H (LoadAndVerify l ctx rawEvents) w) = Some (Some results, err) ->
  exists failures cs,
    calls (run H (LoadAndVerify l ctx rawEvents) w)
      = SignaturesCall ctx (eventAfterParse l <$> rawEvents) (keyRing l)
                       (failures, None) :: cs /\
    length failures = length rawEvents /\
    err = None /\
    LoopCalls l ctx rawEvents failures cs results.
Proof.
  unfold LoadAndVerify, result, calls.
  rewrite run_bind.
  pose proof (run_parseLoop H l w rawEvents 0 [] [] eq_refl eq_refl) as Hparse.
  cbn [app] in Hparse. rewrite Hparse. clear Hparse.
  rewrite run_bind, run_VerifyEventSignatures.
  destruct (onVerifyEventSignatures H ctx (eventAfterParse l <$> rawEvents)
              (keyRing l) w) as [[failures [e|]] w1]; [discriminate|].
  rewrite length_fmap.
  case_decide as Hlen; [discriminate|].
  assert (Hlen' : length failures = length rawEvents)
    by (destruct (decide (length failures = length rawEvents)); tauto).
  destruct (run_verifyLoop_exact l ctx rawEvents failures [] [] [] w1 Hlen'
              eq_refl eq_refl) as (rs & w' & log & Hrun & Hloop).
  cbn [app length] in Hrun. rewrite run_bind, Hrun. cbn.
  intros Hres. injection Hres as <- <-.
  exists failures, (call <$> log). rewrite app_nil_r.
  repeat split; auto.
Qed.

End ExactLog.

(** ** What the loop's calls look like *)

Section LoopFacts.
Context {T : ExternalTypes} {X : Externals}.

Implicit Types (l : EventsLoader) (ctx : Context) (cs : list Call).

Lemma IterationCalls_length l ctx prior fail h cs r :
  IterationCalls l ctx prior fail h cs r -> length cs <= 2.
Proof. destruct 1; cbn; lia. Qed.

Lemma LoopCalls_length l ctx rawEvents failures cs results :
  LoopCalls l ctx rawEvents failures cs results ->
  length failures = length rawEvents /\
  length results = length rawEvents /\
  length cs <= 2 * length rawEvents.
Proof.
  induction 1 as [|rawEv rawEvents f failures cs1 cs r results Hit _ IH]; cbn.
  - auto.
  - apply IterationCalls_length in Hit. rewrite length_app. lia.
Qed.

Lemma IterationCalls_madeWith l ctx prior fail ev cs r :
  IterationCalls l ctx prior fail (Headered ev (roomVer l)) cs r ->
  Forall (callMadeWith ctx (roomVer l) (keyRing l) (stateProvider l) (provider l))
         cs.
Proof. destruct 1; repeat constructor. Qed.

Lemma LoopCalls_madeWith l ctx rawEvents failures cs results :
  LoopCalls l ctx rawEvents failures cs results ->
  Forall (callMadeWith ctx (roomVer l) (keyRing l) (stateProvider l) (provider l))
         cs.
Proof.
  induction 1 as [|rawEv rawEvents f failures cs1 cs r results Hit _ IH].
  - constructor.
  - apply Forall_app. split; [|exact IH].
    eapply IterationCalls_madeWith. exact Hit.
Qed.

(** In the loop's log a state check comes right after the auth-chain
    check of the same event, and that check had passed unless the event
    is the placeholder of a message that did not parse. *)
Lemma LoopCalls_state_after_chain l ctx rawEvents failures cs results :
  LoopCalls l ctx rawEvents failures cs results ->
  forall before after ctx' sp h id strict s,
    cs = before ++ AuthRulesAtStateCall ctx' sp h id strict s :: after ->
    exists before' c,
      before = before' ++ [AuthChainCall ctx h (provider l) c] /\
      (c = None \/ h = Headered zeroEvent (roomVer l)).
Proof.
  induction 1 as [|rawEv rawEvents f failures cs1 cs r results Hit _ IH];
    intros before after ctx' sp h id strict s Hsplit.
  - destruct before; discriminate.
  - assert (Hlater : forall pre,
      cs = pre ++ AuthRulesAtStateCall ctx' sp h id strict s :: after ->
      forall front, exists before' c,
        front ++ pre = before' ++ [AuthChainCall ctx h (provider l) c] /\
        (c = None \/ h = Headered zeroEvent (roomVer l))).
    { intros pre Hpre front.
      destruct (IH _ _ _ _ _ _ _ _ Hpre) as (b' & c & -> & Hc).
      exists (front ++ b'), c. split; [apply app_assoc|exact Hc]. }
    assert (Hzero : forall p, parseError l rawEv = Some p ->
      Headered (eventAfterParse l rawEv) (roomVer l)
        = Headered zeroEvent (roomVer l)).
    { intros p Hp. unfold eventAfterParse. rewrite Hp. reflexivity. }
    inversion Hit as [e Hp Hf|e Hp Hf|e Hp Hf|Hp Hf|p c0 s0 Hp]; subst cs1 r;
      cbn [app] in Hsplit.
    + apply (Hlater before Hsplit []).
    + destruct before as [|b1 before]; cbn in Hsplit;
        injection Hsplit as Hb Hsplit; [discriminate Hb|subst b1].
      apply (Hlater before Hsplit [_]).
    + destruct before as [|b1 before]; cbn in Hsplit;
        injection Hsplit as Hb Hsplit; [discriminate Hb|subst b1].
      destruct before as [|b2 before]; cbn in Hsplit.
      * injection Hsplit as <- <- <- <- <- <- _.
        exists [], None. split; [reflexivity|left; reflexivity].
      * injection Hsplit as <- Hsplit. apply (Hlater before Hsplit [_; _]).
    + destruct before as [|b1 before]; cbn in Hsplit;
        injection Hsplit as Hb Hsplit; [discriminate Hb|subst b1].
      destruct before as [|b2 before]; cbn in Hsplit.
      * injection Hsplit as <- <- <- <- <- <- _.
        exists [], None. split; [reflexivity|left; reflexivity].
      * injection Hsplit as <- Hsplit. apply (Hlater before Hsplit [_; _]).
    + destruct before as [|b1 before]; cbn in Hsplit;
        injection Hsplit as Hb Hsplit; [discriminate Hb|subst b1].
      destruct before as [|b2 before]; cbn in Hsplit.
      * injection Hsplit as <- <- <- <- <- <- _.
        exists [], c0. split; [reflexivity|right; eapply Hzero; eassumption].
      * injection Hsplit as <- Hsplit. apply (Hlater before Hsplit [_; _]).
Qed.

(** When every message parses and every answer is clear, every iteration
    ends at line 96. *)
Lemma LoopCalls_allClear l ctx rawEvents failures cs results :
  LoopCalls l ctx rawEvents failures cs results ->
  Forall (fun rawEv => parseError l rawEv = None) rawEvents ->
  Forall (fun f => f = None) failures ->
  Forall allClear cs ->
  results =
    (fun rawEv =>
       accepted (Headered (NewEventFromUntrustedJSON rawEv (roomVer l)).1
                          (roomVer l))) <$> rawEvents.
Proof.
  induction 1 as [|rawEv rawEvents f failures cs1 cs r results Hit _ IH];
    intros Hparsed Hfs Hclear; [reflexivity|].
  apply Forall_cons in Hparsed as [Hp Hparsed].
  apply Forall_cons in Hfs as [Hf Hfs].
  apply Forall_app in Hclear as [Hc1 Hclear].
  cbn. rewrite <- IH by assumption. f_equal.
  assert (Hev : eventAfterParse l rawEv
                = (NewEventFromUntrustedJSON rawEv (roomVer l)).1)
    by (unfold eventAfterParse; rewrite Hp; reflexivity).
  rewrite <- Hev.
  inversion Hit as [e Hp' Hf'|e Hp' Hf'|e Hp' Hf'|Hp' Hf'|p c0 s0 Hp'];
    subst; try congruence.
  - apply Forall_cons in Hc1 as [Hc1 _]. discriminate Hc1.
  - apply Forall_cons in Hc1 as [_ Hc1]. apply Forall_cons in Hc1 as [Hc1 _].
    discriminate Hc1.
Qed.

(** The iterations that reach line 78 make one auth-chain check each, on
    their own event. *)
Lemma LoopCalls_chain_events l ctx rawEvents failures cs results :
  LoopCalls l ctx rawEvents failures cs results ->
  omap authChainChecked cs
    = (fun position : RawMessage * option error =>
         Headered (eventAfterParse l position.1) (roomVer l))
      <$> List.filter (reachesAuthChain l) (zip rawEvents failures).
Proof.
  induction 1 as [|rawEv rawEvents f failures cs1 cs r results Hit _ IH];
    [reflexivity|].
  rewrite omap_app, IH. cbn [zip zip_with List.filter].
  unfold reachesAuthChain at 2. cbn [fst snd].
  inversion Hit as [e Hp Hf|e Hp Hf|e Hp Hf|Hp Hf|p c0 s0 Hp]; subst cs1 r;
    rewrite Hp; try rewrite Hf; reflexivity.
Qed.

(** The loop's log, cut where one iteration ends and the next begins:
    one piece per position, each the calls of that position's own
    iteration. *)
Lemma LoopCalls_segments l ctx rawEvents failures cs results :
  LoopCalls l ctx rawEvents failures cs results ->
  exists segments : list (list Call),
    cs = concat segments /\
    length segments = length rawEvents /\
    forall i rawEv,
      rawEvents !! i = Some rawEv ->
      exists f segment ri,
        failures !! i = Some f /\ segments !! i = Some segment /\
        results !! i = Some ri /\
        IterationCalls l ctx (parseError l rawEv) f
          (Headered (eventAfterParse l rawEv) (roomVer l)) segment ri.
Proof.
  induction 1 as [|rawEv rawEvents f failures cs1 cs r results Hit _ IH].
  - exists []. split; [reflexivity|]. split; [reflexivity|].
    intros i rawEv Hi. destruct i; discriminate.
  - destruct IH as (segments & -> & Hlen & Hpos).
    exists (cs1 :: segments). split; [reflexivity|].
    split; [cbn; congruence|].
    intros [|i] rawEv' Hi; cbn in Hi.
    + injection Hi as <-. exists f, cs1, r. repeat split. exact Hit.
    + apply Hpos, Hi.
Qed.

End LoopFacts.

(** * Part III: the claims *)

Section Claims.
Context {T : ExternalTypes} {X : Externals} {World : Type} (H : Handlers World).

Implicit Types (w : World) (l : EventsLoader) (ctx : Context).
Implicit Types (rawEvents : list RawMessage).

(** C1 (length invariant and order preservation).  Every call either
    returns an error and the nil slice, or returns exactly one result per
    raw message, and the result at index [i] is about the raw message at
    index [i].  This includes the empty input, and the call never panics. *)
Theorem LoadAndVerify_length_and_order l ctx rawEvents w :
  let r := run H (LoadAndVerify l ctx rawEvents) w in
  (exists e, result r = Some (None, Some e)) \/
  (exists results,
      result r = Some (Some results, None) /\
      length results = length rawEvents /\
      forall i, i < length rawEvents ->
        exists rawEv ri,
          rawEvents !! i = Some rawEv /\ results !! i = Some ri /\
          outcomeOfPosition l ctx (calls r) i rawEv ri).
Proof.
  intros r. destruct (LoadAndVerify_shape H l ctx rawEvents w)
    as [failures e w0 w1 Hr|failures w0 w1 Hlen Hr
       |failures w0 w1 w' results log Hlen Hr Hrl Hpos Hcalls];
    fold r in Hr; rewrite Hr.
  - left. eexists. reflexivity.
  - left. eexists. reflexivity.
  - right. exists results. split; [reflexivity|]. split; [exact Hrl|].
    intros i Hi.
    destruct (lookup_lt_is_Some_2 rawEvents i Hi) as [rawEv HrawEv].
    destruct (lookup_lt_is_Some_2 failures i) as [f Hf]; [lia|].
    destruct (Hpos i rawEv f HrawEv Hf) as (ri & Hri & Hout).
    exists rawEv, ri. split; [exact HrawEv|]. split; [exact Hri|].
    unfold calls; cbn [snd fmap list_fmap].
    set (sigCall := SignaturesCall _ _ _ _).
    assert (Hsig : forall e, f = Some e ->
      exists events failures0,
        SignaturesCall ctx events (keyRing l) (failures0, None)
          ∈ sigCall :: (call <$> log) /\
        events !! i = Some (eventAfterParse l rawEv) /\
        failures0 !! i = Some (Some e)).
    { intros e ->. exists (eventAfterParse l <$> rawEvents), failures.
      split; [apply list_elem_of_here|]. split; [|exact Hf].
      rewrite list_lookup_fmap, HrawEv. reflexivity. }
    unfold outcomeOfPosition. unfold PositionOutcome in Hout.
    destruct (parseError l rawEv) as [p|] eqn:Hp.
    + left. destruct f as [e|];
        destruct Hout as [[c|] [_ [[s|] [_ Hs]]]]; exact Hs.
    + destruct f as [e|].
      * right. exists e. split; [exact Hout|]. left. apply Hsig. reflexivity.
      * destruct Hout as [[c|] [Hc Hout]].
        -- right. exists c. split; [exact Hout|]. right. left.
           apply list_elem_of_further, Hc.
        -- destruct Hout as [[s|] [Hs Hout]].
           ++ right. exists s. split; [exact Hout|]. right. right.
              apply list_elem_of_further, Hs.
           ++ left. exact Hout.
Qed.

(** C9.  In a returned collection every result has exactly one of its
    [Event] and [Error] fields set. *)
Theorem results_have_exactly_one_field l ctx rawEvents w :
  match result (run H (LoadAndVerify l ctx rawEvents) w) with
  | Some (Some results, _) => Forall exactlyOneSet results
  | _ => True
  end.
Proof.
  destruct (LoadAndVerify_shape H l ctx rawEvents w)
    as [failures e w0 w1 Hr|failures w0 w1 Hlen Hr
       |failures w0 w1 w' results log Hlen Hr Hrl Hpos Hcalls];
    rewrite Hr; cbn; try exact I.
  apply Forall_lookup. intros i ri Hri.
  assert (Hi : i < length rawEvents)
    by (rewrite <- Hrl; eapply lookup_lt_Some; eassumption).
  destruct (lookup_lt_is_Some_2 rawEvents i Hi) as [rawEv HrawEv].
  destruct (lookup_lt_is_Some_2 failures i) as [f Hf]; [lia|].
  destruct (Hpos i rawEv f HrawEv Hf) as (ri' & Hri' & Hout).
  assert (ri' = ri) by congruence. subst ri'.
  apply PositionOutcome_inv in Hout.
  destruct Hout as [->|[e ->]]; [left|right]; cbn; split; congruence.
Qed.

(** First-failure-wins at a position that parsed: the first
    check to return an error decides the result. *)
Lemma first_error_retained l ctx rawEvents w results err i rawEv :
  result (run H (LoadAndVerify l ctx rawEvents) w) = Some (Some results, err) ->
  rawEvents !! i = Some rawEv ->
  parseError l rawEv = None ->
  exists events failures f ri,
    SignaturesCall ctx events (keyRing l) (failures, None)
      ∈ calls (run H (LoadAndVerify l ctx rawEvents) w) /\
    failures !! i = Some f /\ results !! i = Some ri /\
    PositionOutcome l ctx (calls (run H (LoadAndVerify l ctx rawEvents) w))
      None f (Headered (eventAfterParse l rawEv) (roomVer l)) ri.
Proof.
  intros Hres HrawEv Hparse.
  destruct (LoadAndVerify_shape H l ctx rawEvents w)
    as [failures e w0 w1 Hr|failures w0 w1 Hlen Hr
       |failures w0 w1 w' results' log Hlen Hr Hrl Hpos Hcalls];
    rewrite Hr in *; cbn in Hres; try discriminate.
  assert (results' = results) by congruence. subst results'.
  assert (Hi : i < length rawEvents) by (eapply lookup_lt_Some; eassumption).
  destruct (lookup_lt_is_Some_2 failures i) as [f Hf]; [lia|].
  destruct (Hpos i rawEv f HrawEv Hf) as (ri & Hri & Hout).
  exists (eventAfterParse l <$> rawEvents), failures, f, ri.
  split; [apply list_elem_of_here|]. split; [exact Hf|]. split; [exact Hri|].
  rewrite Hparse in Hout.
  eapply PositionOutcome_mono; [|exact Hout].
  intros c Hc. apply list_elem_of_further, Hc.
Qed.

(** The defect behind C2, in general: whenever the call returns results, a
    position whose raw message failed to parse holds an accepted
    zero-valued event, and no error at all. *)
Lemma parse_failure_overwritten l ctx rawEvents w results err i rawEv e :
  result (run H (LoadAndVerify l ctx rawEvents) w) = Some (Some results, err) ->
  rawEvents !! i = Some rawEv ->
  parseError l rawEv = Some e ->
  results !! i = Some (accepted (Headered zeroEvent (roomVer l))).
Proof.
  intros Hres HrawEv Hparse.
  destruct (LoadAndVerify_shape H l ctx rawEvents w)
    as [failures e0 w0 w1 Hr|failures w0 w1 Hlen Hr
       |failures w0 w1 w' results' log Hlen Hr Hrl Hpos Hcalls];
    rewrite Hr in Hres; cbn in Hres; try discriminate.
  assert (results' = results) by congruence. subst results'.
  assert (Hi : i < length rawEvents) by (eapply lookup_lt_Some; eassumption).
  destruct (lookup_lt_is_Some_2 failures i) as [f Hf]; [lia|].
  destruct (Hpos i rawEv f HrawEv Hf) as (ri & Hri & Hout).
  rewrite Hparse in Hout. apply PositionOutcome_prior in Hout.
  rewrite Hri, Hout. unfold eventAfterParse. rewrite Hparse. reflexivity.
Qed.

(** C3 (infrastructure abort).  If the batched signature verifier returns
    an error, or a number of verdicts that differs from the number of
    events it was given, the call returns the nil slice and an error: the
    verifier's own error, or the length-mismatch error of line 65. *)
Theorem signature_verifier_failure_aborts l ctx rawEvents w
    ctx' events keyRing' failures err :
  let r := run H (LoadAndVerify l ctx rawEvents) w in
  SignaturesCall ctx' events keyRing' (failures, err) ∈ calls r ->
  err <> None \/ length failures <> length events ->
  result r =
    Some (None,
          Some (match err with
                | Some e => e
                | None => lengthMismatch (length failures) (length events)
                end)).
Proof.
  intros r Hin Hbad.
  destruct (LoadAndVerify_shape H l ctx rawEvents w)
    as [failures0 e w0 w1 Hr|failures0 w0 w1 Hlen Hr
       |failures0 w0 w1 w' results log Hlen Hr Hrl Hpos Hcalls];
    fold r in Hr; rewrite Hr in *; unfold calls in Hin; cbn in Hin.
  - apply list_elem_of_singleton in Hin. injection Hin as -> -> -> -> ->.
    reflexivity.
  - apply list_elem_of_singleton in Hin. injection Hin as -> -> -> -> ->.
    rewrite length_fmap. reflexivity.
  - apply elem_of_cons in Hin. destruct Hin as [Hin|Hin].
    + injection Hin as -> -> -> -> ->. rewrite length_fmap in Hbad.
      destruct Hbad as [Hbad|Hbad]; [congruence|lia].
    + destruct (perEventCall_not_signatures l ctx _ _ _ _ _ Hcalls Hin).
Qed.

(** C5 (the soft-fail path is not wired in).  Whatever the
    [performSoftFailCheck] flag, every state-authorization check of a call
    is made in strict mode, no returned result has [SoftFail] set, and the
    flag does not change the program at all. *)
Theorem soft_fail_is_not_wired l ctx rawEvents w :
  let r := run H (LoadAndVerify l ctx rawEvents) w in
  Forall strictStateCheck (calls r) /\
  match result r with
  | Some (Some results, _) =>
      Forall (fun ri => EventLoadResult.SoftFail ri = false) results
  | _ => True
  end /\
  LoadAndVerify l ctx rawEvents =
    LoadAndVerify
      (NewEventsLoader (roomVer l) (keyRing l) (stateProvider l) (provider l)
                       (negb (performSoftFailCheck l)))
      ctx rawEvents.
Proof.
  intros r. split; [|split].
  - destruct (LoadAndVerify_calls H l ctx rawEvents w) as (ret & rest & Hc & Hall).
    fold r in Hc. rewrite Hc. constructor; [exact I|].
    eapply Forall_impl; [exact Hall|].
    intros [| |c sp h id strict ret0]; cbn; tauto.
  - destruct (LoadAndVerify_shape H l ctx rawEvents w)
      as [failures e w0 w1 Hr|failures w0 w1 Hlen Hr
         |failures w0 w1 w' results log Hlen Hr Hrl Hpos Hcalls];
      fold r in Hr; rewrite Hr; cbn; try exact I.
    apply Forall_lookup. intros i ri Hri.
    assert (Hi : i < length rawEvents)
      by (rewrite <- Hrl; eapply lookup_lt_Some; eassumption).
    destruct (lookup_lt_is_Some_2 rawEvents i Hi) as [rawEv HrawEv].
    destruct (lookup_lt_is_Some_2 failures i) as [f Hf]; [lia|].
    destruct (Hpos i rawEv f HrawEv Hf) as (ri' & Hri' & Hout).
    assert (ri' = ri) by congruence. subst ri'.
    apply PositionOutcome_inv in Hout. destruct Hout as [->|[e ->]]; reflexivity.
  - unfold LoadAndVerify.
    rewrite (parseLoop_roomVer l
               (NewEventsLoader (roomVer l) (keyRing l) (stateProvider l)
                                (provider l) (negb (performSoftFailCheck l))))
      by reflexivity.
    reflexivity.
Qed.

(** C6 (a rejection never aborts).  Whether the call fails is decided by
    the batched signature verifier alone.  When the verifier returned no
    error and one verdict per event, the call returns one result per raw
    message and the second loop has gone through every position: each
    one, whatever was rejected before it and at whichever stage, has had
    its own iteration, with the calls and the outcome of one of the five
    ways through lines 67-99 ([LoopCalls]).  The call returns an error
    exactly when the verifier returned an error or a number of verdicts
    that is not the number of events. *)
Theorem rejections_never_abort l ctx rawEvents w :
  let r := run H (LoadAndVerify l ctx rawEvents) w in
  exists events failures err cs,
    calls r = SignaturesCall ctx events (keyRing l) (failures, err) :: cs /\
    (((exists results,
          result r = Some (Some results, None) /\
          length results = length rawEvents /\
          LoopCalls l ctx rawEvents failures cs results) /\
      err = None /\ length failures = length events)
     \/
     ((exists e, result r = Some (None, Some e)) /\
      (err <> None \/ length failures <> length events))).
Proof.
  intros r.
  destruct (LoadAndVerify_shape H l ctx rawEvents w)
    as [failures e w0 w1 Hr|failures w0 w1 Hlen Hr
       |failures w0 w1 w' results log Hlen Hr Hrl Hpos Hcalls];
    fold r in Hr.
  - rewrite Hr. unfold calls; cbn.
    eexists _, failures, _, _. split; [reflexivity|].
    right. split; [eexists; reflexivity|]. left. discriminate.
  - rewrite Hr. unfold calls; cbn.
    eexists _, failures, _, _. split; [reflexivity|]. rewrite length_fmap.
    right. split; [eexists; reflexivity|]. right. exact Hlen.
  - destruct (LoadAndVerify_exact H l ctx rawEvents w results None)
      as (failures' & cs & Hc & Hlen' & _ & Hloop);
      [fold r; rewrite Hr; reflexivity|].
    fold r in Hc. exists (eventAfterParse l <$> rawEvents), failures', None, cs.
    split; [exact Hc|]. left. rewrite length_fmap.
    split; [|split; [reflexivity|exact Hlen']].
    exists results. rewrite Hr. split; [reflexivity|].
    split; [exact Hrl|exact Hloop].
Qed.

(** C7 (placeholders keep the batch aligned).  The batched signature
    verifier is called exactly once per call, on a collection with one
    event per raw message, in order: the parsed event where parsing
    succeeded and the zero-valued event where it failed. *)
Theorem signatures_called_once_on_aligned_batch l ctx rawEvents w :
  let r := run H (LoadAndVerify l ctx rawEvents) w in
  exists events ret,
    List.filter isSignaturesCall (calls r)
      = [SignaturesCall ctx events (keyRing l) ret] /\
    length events = length rawEvents /\
    forall i rawEv,
      rawEvents !! i = Some rawEv ->
      events !! i =
        Some (match NewEventFromUntrustedJSON rawEv (roomVer l) with
              | (_, Some _) => zeroEvent
              | (event, None) => event
              end).
Proof.
  intros r.
  destruct (LoadAndVerify_calls H l ctx rawEvents w) as (ret & rest & Hc & Hall).
  fold r in Hc. exists (eventAfterParse l <$> rawEvents), ret.
  split; [|split].
  - rewrite Hc. cbn. rewrite (filter_perEventCall l ctx rest Hall). reflexivity.
  - apply length_fmap.
  - intros i rawEv HrawEv. rewrite list_lookup_fmap, HrawEv. cbn.
    unfold eventAfterParse, parseError.
    destruct (NewEventFromUntrustedJSON rawEv (roomVer l)) as [event [e|]];
      reflexivity.
Qed.

(** C4, as amended (cancellation).  The loader never looks at the context
    itself.  A cancellation that strikes while the batched signature
    verifier is in flight aborts the call when the verifier reports an
    error, and that error is returned with the nil slice.  A cancellation
    that strikes while an auth-chain or state-authorization check is in
    flight does not abort the call: it still returns one result per raw
    message and a nil error. *)
Theorem cancellation_aborts_only_through_signatures l ctx rawEvents w s :
  let r := run H (LoadAndVerify l ctx rawEvents) w in
  s ∈ steps r ->
  cancelledDuring H s ->
  match call s with
  | SignaturesCall _ _ _ (_, Some e) => result r = Some (None, Some e)
  | SignaturesCall _ events _ (failures, None) =>
      (length failures = length events /\
       exists results,
         result r = Some (Some results, None) /\
         length results = length rawEvents) \/
      (length failures <> length events /\
       result r =
         Some (None, Some (lengthMismatch (length failures) (length events))))
  | AuthChainCall _ _ _ _ | AuthRulesAtStateCall _ _ _ _ _ _ =>
      exists results,
        result r = Some (Some results, None) /\
        length results = length rawEvents
  end.
Proof.
  intros r Hin _.
  destruct (LoadAndVerify_shape H l ctx rawEvents w)
    as [failures e w0 w1 Hr|failures w0 w1 Hlen Hr
       |failures w0 w1 w' results log Hlen Hr Hrl Hpos Hcalls];
    fold r in Hr; rewrite Hr in *; unfold steps in Hin; cbn in Hin.
  - apply list_elem_of_singleton in Hin. subst s. reflexivity.
  - apply list_elem_of_singleton in Hin. subst s. cbn.
    rewrite length_fmap. right. split; [exact Hlen|reflexivity].
  - apply elem_of_cons in Hin. destruct Hin as [->|Hin].
    + cbn. rewrite length_fmap. left. split; [exact Hlen|].
      exists results. split; [reflexivity|exact Hrl].
    + assert (Hs : perEventCall l ctx (call s)).
      { rewrite Forall_forall in Hcalls. apply Hcalls.
        apply list_elem_of_fmap. exists s. split; [reflexivity|exact Hin]. }
      destruct (call s); cbn in Hs; [contradiction| |];
        exists results; (split; [reflexivity|exact Hrl]).
Qed.

End Claims.

Section TwoCalls.
Context {T : ExternalTypes} {X : Externals} {World1 World2 : Type}.
Context (H1 : Handlers World1) (H2 : Handlers World2).

(** C8 (independence).  Take two batches, each run against its own
    collaborators in its own world, that hold the same raw message at
    some position of each (the same index, when one batch is the other
    with an event [k] made to fail).  If the collaborators gave that
    message's event the same verdicts in both calls, the two calls return
    the same result at these positions, whatever the other positions of
    either batch hold and whatever happened to them. *)
Theorem independence_of_positions l ctx rawEvents1 rawEvents2 w1 w2
    results1 results2 j1 j2 rawEv f c s :
  let r1 := run H1 (LoadAndVerify l ctx rawEvents1) w1 in
  let r2 := run H2 (LoadAndVerify l ctx rawEvents2) w2 in
  let h := Headered (eventAfterParse l rawEv) (roomVer l) in
  result r1 = Some (Some results1, None) ->
  result r2 = Some (Some results2, None) ->
  rawEvents1 !! j1 = Some rawEv ->
  rawEvents2 !! j2 = Some rawEv ->
  signatureVerdictAt (calls r1) j1 f -> signatureVerdictAt (calls r2) j2 f ->
  authChainVerdict (calls r1) h c -> authChainVerdict (calls r2) h c ->
  stateVerdict (calls r1) h s -> stateVerdict (calls r2) h s ->
  results1 !! j1 = results2 !! j2.
Proof.
  intros r1 r2 h Hres1 Hres2 Hraw1 Hraw2 Hf1 Hf2 Hc1 Hc2 Hs1 Hs2.
  assert (Hone : forall {World} (H : Handlers World) rawEvents w results j,
    result (run H (LoadAndVerify l ctx rawEvents) w) = Some (Some results, None) ->
    rawEvents !! j = Some rawEv ->
    signatureVerdictAt (calls (run H (LoadAndVerify l ctx rawEvents) w)) j f ->
    authChainVerdict (calls (run H (LoadAndVerify l ctx rawEvents) w)) h c ->
    stateVerdict (calls (run H (LoadAndVerify l ctx rawEvents) w)) h s ->
    results !! j = Some (verdictOutcome (parseError l rawEv) f c s h)).
  { clear. intros World H rawEvents w results j Hres Hraw Hf Hc Hs.
    destruct (LoadAndVerify_shape H l ctx rawEvents w)
      as [failures e w0 w1 Hr|failures w0 w1 Hlen Hr
         |failures w0 w1 w' results' log Hlen Hr Hrl Hpos Hcalls];
      rewrite Hr in *; cbn in Hres; try discriminate.
    assert (results' = results) by congruence. subst results'.
    unfold calls in Hf, Hc, Hs; cbn in Hf, Hc, Hs.
    destruct Hf as (ctx' & events' & kr' & failures' & err' & Hin & Hfj).
    apply elem_of_cons in Hin. destruct Hin as [Hin|Hin];
      [|destruct (perEventCall_not_signatures l ctx _ _ _ _ _ Hcalls Hin)].
    injection Hin as -> -> -> -> ->.
    destruct (Hpos j rawEv f Hraw Hfj) as (rj & Hrj & Hout).
    rewrite Hrj. f_equal.
    eapply PositionOutcome_verdicts; [exact Hout| |].
    - intros ctx' pr c' Hin. eapply Hc. apply list_elem_of_further, Hin.
    - intros ctx' sp id strict s' Hin. eapply Hs.
      apply list_elem_of_further, Hin. }
  rewrite (Hone _ H1 rawEvents1 w1 results1 j1) by assumption.
  rewrite (Hone _ H2 rawEvents2 w2 results2 j2) by assumption.
  reflexivity.
Qed.

(** C10 (determinism).  Two calls on the same raw messages by loaders of
    the same room version, whose collaborators return the same answers
    one after the other, return the same thing: the same error, or the
    same results at the same positions.  The contexts, the key rings and
    providers, the collaborators' implementations and the worlds they run
    in may all differ. *)
Theorem LoadAndVerify_deterministic l1 l2 ctx1 ctx2 rawEvents w1 w2 :
  let r1 := run H1 (LoadAndVerify l1 ctx1 rawEvents) w1 in
  let r2 := run H2 (LoadAndVerify l2 ctx2 rawEvents) w2 in
  roomVer l1 = roomVer l2 ->
  answer <$> calls r1 = answer <$> calls r2 ->
  result r1 = result r2.
Proof.
  intros r1 r2 Hv Hanswers.
  apply sim_run; [|exact Hanswers].
  apply sim_LoadAndVerify. exact Hv.
Qed.

End TwoCalls.

(** * Part IV: further properties of the loader *)

Section Further.
Context {T : ExternalTypes} {X : Externals} {World : Type} (H : Handlers World).

Implicit Types (w : World) (l : EventsLoader) (ctx : Context).
Implicit Types (rawEvents : list RawMessage).

(** X1 (what the collaborators are handed).  A loader built by
    [NewEventsLoader] calls the signature verifier with its key ring, the
    auth-chain check with its auth-chain provider and the state check with
    its state provider, not the other way round although the constructor
    takes the two providers in the opposite order of the struct's fields;
    every call gets the caller's context, every per-event check an event
    headered with the loader's room version, and the state check that
    event's own ID, in strict mode. *)
Theorem collaborators_receive_the_loaders_fields
    (roomVer0 : RoomVersion) (keyRing0 : JSONVerifier)
    (stateProvider0 : StateProvider) (provider0 : AuthChainProvider)
    (softFail : bool) ctx rawEvents w :
  Forall (callMadeWith ctx roomVer0 keyRing0 stateProvider0 provider0)
    (calls (run H (LoadAndVerify
                     (NewEventsLoader roomVer0 keyRing0 stateProvider0
                                      provider0 softFail)
                     ctx rawEvents) w)).
Proof.
  set (l := NewEventsLoader roomVer0 keyRing0 stateProvider0 provider0 softFail).
  destruct (LoadAndVerify_shape H l ctx rawEvents w)
    as [failures e w0 w1 Hr|failures w0 w1 Hlen Hr
       |failures w0 w1 w' results log Hlen Hr Hrl Hpos Hcalls].
  - rewrite Hr. repeat constructor.
  - rewrite Hr. repeat constructor.
  - destruct (LoadAndVerify_exact H l ctx rawEvents w results None)
      as (failures' & cs & Hc & _ & _ & Hloop); [rewrite Hr; reflexivity|].
    rewrite Hc. constructor; [split; reflexivity|].
    exact (LoopCalls_madeWith l ctx _ _ _ _ Hloop).
Qed.

(** X2 (call budget).  A call on [N] raw messages makes at most [1 + 2N]
    collaborator calls. *)
Theorem call_budget l ctx rawEvents w :
  length (calls (run H (LoadAndVerify l ctx rawEvents) w))
    <= 1 + 2 * length rawEvents.
Proof.
  destruct (LoadAndVerify_shape H l ctx rawEvents w)
    as [failures e w0 w1 Hr|failures w0 w1 Hlen Hr
       |failures w0 w1 w' results log Hlen Hr Hrl Hpos Hcalls].
  - rewrite Hr. cbn. lia.
  - rewrite Hr. cbn. lia.
  - destruct (LoadAndVerify_exact H l ctx rawEvents w results None)
      as (failures' & cs & Hc & _ & _ & Hloop); [rewrite Hr; reflexivity|].
    rewrite Hc. cbn [length].
    destruct (LoopCalls_length l ctx _ _ _ _ Hloop) as (_ & _ & Hcs). lia.
Qed.

(** X3 (nothing is checked after an abort).  A call that returns an error
    returns the nil slice with it, and has made a single collaborator
    call, the batched signature verification: no auth-chain or state check
    is made. *)
Theorem abort_makes_no_per_event_call l ctx rawEvents w out e :
  let r := run H (LoadAndVerify l ctx rawEvents) w in
  result r = Some (out, Some e) ->
  out = None /\
  exists events ret, calls r = [SignaturesCall ctx events (keyRing l) ret].
Proof.
  intros r Hres.
  destruct (LoadAndVerify_shape H l ctx rawEvents w)
    as [failures e0 w0 w1 Hr|failures w0 w1 Hlen Hr
       |failures w0 w1 w' results log Hlen Hr Hrl Hpos Hcalls];
    fold r in Hr; rewrite Hr in *; cbn in Hres; try discriminate;
    injection Hres as <- _; (split; [reflexivity|]);
    eexists _, _; reflexivity.
Qed.

(** X4 (order of the per-event checks).  Every state-authorization check
    comes directly after the auth-chain check of the same event, and that
    auth-chain check returned nil unless the event is the zero-valued
    placeholder of a message that did not parse. *)
Theorem state_check_follows_auth_chain_check l ctx rawEvents w
    before after ctx' sp h id strict s :
  calls (run H (LoadAndVerify l ctx rawEvents) w)
    = before ++ AuthRulesAtStateCall ctx' sp h id strict s :: after ->
  exists before' c,
    before = before' ++ [AuthChainCall ctx h (provider l) c] /\
    (c = None \/ h = Headered zeroEvent (roomVer l)).
Proof.
  intros Hsplit.
  destruct (LoadAndVerify_shape H l ctx rawEvents w)
    as [failures e w0 w1 Hr|failures w0 w1 Hlen Hr
       |failures w0 w1 w' results log Hlen Hr Hrl Hpos Hcalls].
  - rewrite Hr in Hsplit. unfold calls in Hsplit. cbn in Hsplit.
    destruct before as [|b1 [|b2 before]]; discriminate.
  - rewrite Hr in Hsplit. unfold calls in Hsplit. cbn in Hsplit.
    destruct before as [|b1 [|b2 before]]; discriminate.
  - destruct (LoadAndVerify_exact H l ctx rawEvents w results None)
      as (failures' & cs & Hc & _ & _ & Hloop); [rewrite Hr; reflexivity|].
    rewrite Hc in Hsplit.
    destruct before as [|b1 before]; cbn in Hsplit; [discriminate|].
    injection Hsplit as <- Hsplit.
    destruct (LoopCalls_state_after_chain l ctx _ _ _ _ Hloop _ _ _ _ _ _ _ _
                Hsplit) as (before' & c & -> & Hc').
    eexists (_ :: before'), c. split; [reflexivity|exact Hc'].
Qed.

(** X5 (valid events are accepted).  When every raw message parses and
    every collaborator lets every event through, the call returns, in
    order, one accepted result per message, holding the parsed event
    headered with the loader's room version. *)
Theorem all_clear_all_accepted l ctx rawEvents w :
  let r := run H (LoadAndVerify l ctx rawEvents) w in
  Forall (fun rawEv => parseError l rawEv = None) rawEvents ->
  Forall allClear (calls r) ->
  result r =
    Some (Some ((fun rawEv =>
                   accepted
                     (Headered (NewEventFromUntrustedJSON rawEv (roomVer l)).1
                               (roomVer l))) <$> rawEvents),
          None).
Proof.
  intros r Hparsed Hclear.
  destruct (LoadAndVerify_shape H l ctx rawEvents w)
    as [failures e w0 w1 Hr|failures w0 w1 Hlen Hr
       |failures w0 w1 w' results log Hlen Hr Hrl Hpos Hcalls];
    fold r in Hr.
  - rewrite Hr in Hclear. unfold calls in Hclear. cbn in Hclear.
    apply Forall_cons in Hclear as [[Herr _] _]. discriminate Herr.
  - rewrite Hr in Hclear. unfold calls in Hclear. cbn in Hclear.
    apply Forall_cons in Hclear as [[_ Hfs] _].
    rewrite Hfs, length_replicate, length_fmap in Hlen. congruence.
  - destruct (LoadAndVerify_exact H l ctx rawEvents w results None)
      as (failures' & cs & Hc & _ & _ & Hloop);
      [fold r; rewrite Hr; reflexivity|].
    fold r in Hc. rewrite Hc in Hclear.
    apply Forall_cons in Hclear as [[_ Hfs] Hclear].
    rewrite Hr. cbn. do 3 f_equal.
    eapply LoopCalls_allClear; try eassumption.
    rewrite Hfs. apply Forall_replicate. reflexivity.
Qed.

(** X6 (first rejection wins among the checks).  At a position whose raw
    message parsed, the result is decided by the first of the three checks
    to return an error, in the order signature, auth chain, state: that
    error is the position's result, and the event is accepted when all
    three returned nil. *)
Theorem first_rejection_wins l ctx rawEvents w results err i rawEv f c s :
  let r := run H (LoadAndVerify l ctx rawEvents) w in
  let h := Headered (NewEventFromUntrustedJSON rawEv (roomVer l)).1 (roomVer l) in
  result r = Some (Some results, err) ->
  rawEvents !! i = Some rawEv ->
  parseError l rawEv = None ->
  signatureVerdictAt (calls r) i f ->
  authChainVerdict (calls r) h c ->
  stateVerdict (calls r) h s ->
  results !! i =
    Some (match f, c, s with
          | Some e, _, _ | None, Some e, _ | None, None, Some e => rejected e
          | None, None, None => accepted h
          end).
Proof.
  intros r h Hres Hraw Hparse Hf Hc Hs.
  destruct (LoadAndVerify_shape H l ctx rawEvents w)
    as [failures e w0 w1 Hr|failures w0 w1 Hlen Hr
       |failures w0 w1 w' results' log Hlen Hr Hrl Hpos Hcalls];
    fold r in Hr; rewrite Hr in *; cbn in Hres; try discriminate.
  assert (results' = results) by congruence. subst results'.
  unfold calls in Hf, Hc, Hs; cbn in Hf, Hc, Hs.
  destruct Hf as (ctx' & events' & kr' & failures' & err' & Hin & Hfi).
  apply elem_of_cons in Hin. destruct Hin as [Hin|Hin];
    [|destruct (perEventCall_not_signatures l ctx _ _ _ _ _ Hcalls Hin)].
  injection Hin as -> -> -> -> ->.
  destruct (Hpos i rawEv f Hraw Hfi) as (ri & Hri & Hout).
  assert (Hh : Headered (eventAfterParse l rawEv) (roomVer l) = h)
    by (unfold h, eventAfterParse; rewrite Hparse; reflexivity).
  rewrite Hh, Hparse in Hout. rewrite Hri. f_equal.
  rewrite (PositionOutcome_verdicts l ctx _ None f h ri c s Hout).
  - destruct f, c, s; reflexivity.
  - intros ctx' pr c' Hin. eapply Hc. apply list_elem_of_further, Hin.
  - intros ctx' sp id strict s' Hin. eapply Hs.
    apply list_elem_of_further, Hin.
Qed.

(** X7 (no short-circuit after a parse failure).  In a call that returns
    results, the calls after the batched verification fall into one
    segment per position, in order, and the segment of each position
    whose raw message did not parse is an auth-chain check followed by a
    state check, both on the zero-valued event headered with the loader's
    room version: every such position is put through both checks, each
    with calls of its own. *)
Theorem unparsable_messages_are_still_checked l ctx rawEvents w results err :
  let r := run H (LoadAndVerify l ctx rawEvents) w in
  let h := Headered zeroEvent (roomVer l) in
  result r = Some (Some results, err) ->
  exists events ret (segments : list (list Call)),
    calls r = SignaturesCall ctx events (keyRing l) ret :: concat segments /\
    length segments = length rawEvents /\
    forall i rawEv e,
      rawEvents !! i = Some rawEv ->
      parseError l rawEv = Some e ->
      exists c s,
        segments !! i =
          Some [AuthChainCall ctx h (provider l) c;
                AuthRulesAtStateCall ctx (stateProvider l) h (EventID h) true s].
Proof.
  intros r h Hres.
  destruct (LoadAndVerify_exact H l ctx rawEvents w results err Hres)
    as (failures & cs & Hc & _ & _ & Hloop).
  fold r in Hc.
  destruct (LoopCalls_segments l ctx _ _ _ _ Hloop) as (segments & -> & Hlen & Hpos).
  eexists _, _, segments. split; [exact Hc|]. split; [exact Hlen|].
  intros i rawEv e Hraw Hparse.
  destruct (Hpos i rawEv Hraw) as (f & segment & ri & _ & Hseg & _ & Hit).
  assert (Hh : Headered (eventAfterParse l rawEv) (roomVer l) = h)
    by (unfold h, eventAfterParse; rewrite Hparse; reflexivity).
  rewrite Hh, Hparse in Hit.
  inversion Hit as [e' Hp Hf|e' Hp Hf|e' Hp Hf|Hp Hf|p c s Hp Hcalls Hri];
    try discriminate Hp.
  exists c, s. rewrite Hseg, <- Hcalls. reflexivity.
Qed.

(** X8 (which auth chains are checked, and in which order).  In a call
    that returns results, the auth-chain checks are made in the order of
    the input, one for every position except those whose message parsed
    and whose signature was rejected, each on the event of its position: a
    signature rejection ends the work on a parsed event, a parse failure
    does not. *)
Theorem auth_chain_checks_in_input_order l ctx rawEvents w results err
    ctx' events kr failures err' :
  let r := run H (LoadAndVerify l ctx rawEvents) w in
  result r = Some (Some results, err) ->
  head (calls r) = Some (SignaturesCall ctx' events kr (failures, err')) ->
  omap authChainChecked (calls r)
    = (fun position : RawMessage * option error =>
         Headered (eventAfterParse l position.1) (roomVer l))
      <$> List.filter (reachesAuthChain l) (zip rawEvents failures).
Proof.
  intros r Hres Hhead.
  destruct (LoadAndVerify_exact H l ctx rawEvents w results err Hres)
    as (failures' & cs & Hc & _ & _ & Hloop).
  fold r in Hc. rewrite Hc in Hhead |- *. cbn in Hhead.
  injection Hhead as _ _ _ <- _.
  cbn. exact (LoopCalls_chain_events l ctx _ _ _ _ Hloop).
Qed.

End Further.

(** * Part V: the claims on the test bench *)

Section OnTheBench.
#[local] Existing Instance Bench.types.
#[local] Existing Instance Bench.externals.

Import Bench.

(** Case analysis on the membership of a call in the log of a bench run. *)
Ltac among_the_calls Hin :=
  apply list_elem_of_In in Hin; vm_compute in Hin;
  repeat (destruct Hin as [Hin|Hin]; [by simplify_eq|]);
  destruct Hin.

(** A batch with one event for each way through the second loop. *)
Example one_event_per_stage :
  result (loadAndVerify handlers
            [raw "{ok}"; raw "{forged}"; raw "{unauthorised}"; raw "{forbidden}"])
  = Some (Some [accepted (Headered "{ok}" "10");
                rejected "bad signature";
                rejected "not allowed by auth chain";
                rejected "not allowed by state"]%string,
          None).
Proof. vm_compute. reflexivity. Qed.

(** The empty batch still asks the batched verifier, about no event. *)
Example empty_batch :
  result (loadAndVerify handlers []) = Some (Some [], None) /\
  calls (loadAndVerify handlers []) = [SignaturesCall () [] () ([], None)].
Proof. split; vm_compute; reflexivity. Qed.

(** The batch handed to the verifier holds the zero value where a raw
    message did not parse. *)
Example placeholder_in_the_batch :
  head (calls (loadAndVerify handlers [raw "{ok}"; raw "garbage"]))
  = Some (SignaturesCall () ["{ok}"; ""]%string ()
            ([None; Some "event is missing signatures"%string], None)).
Proof. vm_compute. reflexivity. Qed.

(** A rejection, at whichever stage, does not stop the loop: the events
    after a forged one, an unauthorised one and a forbidden one are
    still checked and get their outcome. *)
Example rejections_do_not_stop_the_loop :
  result (loadAndVerify handlers
            [raw "{forged}"; raw "{a}"; raw "{unauthorised}"; raw "{b}";
             raw "{forbidden}"; raw "{c}"])
  = Some (Some [rejected "bad signature";
                accepted (Headered "{a}" "10");
                rejected "not allowed by auth chain";
                accepted (Headered "{b}" "10");
                rejected "not allowed by state";
                accepted (Headered "{c}" "10")]%string,
          None) /\
  length (calls (loadAndVerify handlers
                   [raw "{forged}"; raw "{a}"; raw "{unauthorised}"; raw "{b}";
                    raw "{forbidden}"; raw "{c}"]))
  = 10.
Proof. split; vm_compute; reflexivity. Qed.

(** C2 (first failure wins) fails on the code.  A batch of one raw message
    that is not JSON: parsing fails, and the stubs for the signature and
    auth-chain checks reject the placeholder as well.  The call returns,
    at this position, not the parse error but an accepted event, which is
    the zero-valued placeholder: the iteration falls through the three
    guards, which leave a position that already holds an error alone, to
    the assignment of line 96. *)
Theorem parse_error_replaced_by_accepted_event :
  parseError loader (raw "garbage")
    = Some "invalid character looking for beginning of value"%string /\
  signatureStub zeroEvent = Some "event is missing signatures"%string /\
  result (loadAndVerify handlers [raw "garbage"])
    = Some (Some [accepted (Headered zeroEvent "10"%string)], None).
Proof.
  split; [|split].
  - reflexivity.
  - reflexivity.
  - vm_compute. reflexivity.
Qed.

(** C3 on the bench: three events, two verdicts. *)
Lemma signature_verifier_failure_aborts_witness :
  result (loadAndVerify shortHandlers [raw "{a}"; raw "{b}"; raw "{c}"])
    = Some (None,
            Some "gomatrixserverlib: bulk event signature verification length mismatch: 2 != 3"%string).
Proof.
  refine (signature_verifier_failure_aborts shortHandlers loader ()
            [raw "{a}"; raw "{b}"; raw "{c}"] false
            () ["{a}"; "{b}"; "{c}"]%string () [None; None] None _ _).
  - vm_compute. apply list_elem_of_here.
  - right. cbn. lia.
Defined.

(** C4 as stated fails on the code: the context is cancelled while the
    state provider is being asked about the only event of the batch, and
    the call returns a result for it, the context's error, and no error
    of its own. *)
Lemma cancellation_during_state_check_does_not_abort :
  ~ CancellationAborts slowStateHandlers loader () [raw "{ok}"] false.
Proof.
  unfold CancellationAborts. cbv zeta. intros Habort.
  destruct Habort as [e He].
  - apply Exists_exists.
    exists cancelledStateCheck.
    split.
    + vm_compute. apply list_elem_of_further, list_elem_of_further,
        list_elem_of_here.
    + split; [reflexivity|discriminate].
  - vm_compute in He. discriminate He.
Qed.

(** C4 as amended, on the same run. *)
Lemma cancellation_aborts_only_through_signatures_witness :
  exists results,
    result (loadAndVerify slowStateHandlers [raw "{ok}"])
      = Some (Some results, None) /\
    length results = 1.
Proof.
  refine (cancellation_aborts_only_through_signatures slowStateHandlers
            loader () [raw "{ok}"] false cancelledStateCheck _ _).
  - vm_compute. apply list_elem_of_further, list_elem_of_further,
      list_elem_of_here.
  - split; [reflexivity|discriminate].
Defined.

(** C8 on the bench: the second event of the batch is replaced by one
    that does not parse; the third, which the state check rejects, keeps
    its result. *)
Lemma independence_of_positions_witness :
  [rejected "not allowed by auth chain"; rejected "not allowed by state"]%string
    !! 1
  = [accepted (Headered zeroEvent "10"); rejected "not allowed by state"]%string
    !! 1.
Proof.
  refine (independence_of_positions handlers handlers loader ()
            [raw "{unauthorised}"; raw "{forbidden}"]
            [raw "garbage"; raw "{forbidden}"]
            false false _ _ 1 1 (raw "{forbidden}")
            None None (Some "not allowed by state"%string)
            _ _ _ _ _ _ _ _ _ _);
    try (vm_compute; reflexivity).
  - eexists _, _, _, _, _. split; [vm_compute; apply list_elem_of_here|].
    reflexivity.
  - eexists _, _, _, _, _. split; [vm_compute; apply list_elem_of_here|].
    reflexivity.
  - intros ctx pr c' Hin. among_the_calls Hin.
  - intros ctx pr c' Hin. among_the_calls Hin.
  - intros ctx sp id strict s' Hin. among_the_calls Hin.
  - intros ctx sp id strict s' Hin. among_the_calls Hin.
Defined.

(** C10 on the bench: the same batch, loaded once with the soft-fail flag
    off in a world where the context is live, once with the flag on in a
    world where it is cancelled already. *)
Lemma LoadAndVerify_deterministic_witness :
  result (run handlers
            (LoadAndVerify (NewEventsLoader "10"%string () () () false) ()
                           [raw "{ok}"; raw "garbage"; raw "{forged}"])
            false)
  = result (run handlers
              (LoadAndVerify (NewEventsLoader "10"%string () () () true) ()
                             [raw "{ok}"; raw "garbage"; raw "{forged}"])
              true).
Proof.
  refine (LoadAndVerify_deterministic handlers handlers _ _ () () _ false true
            _ _).
  - reflexivity.
  - vm_compute. reflexivity.
Defined.

End OnTheBench.

(** * Part VI: the further properties on the test bench *)

Section FurtherOnTheBench.
#[local] Existing Instance Bench.types.
#[local] Existing Instance Bench.externals.

Import Bench.

(** Whichever call of the log of a bench run it is, the goal follows. *)
Ltac whichever_call Hin :=
  apply list_elem_of_In in Hin; vm_compute in Hin;
  repeat (destruct Hin as [Hin|Hin]; [by simplify_eq|]);
  destruct Hin.

(** X3 on the bench: the verifier that drops a verdict. *)
Lemma abort_makes_no_per_event_call_witness :
  exists events ret,
    calls (loadAndVerify shortHandlers [raw "{a}"; raw "{b}"; raw "{c}"])
      = [@SignaturesCall types tt events tt ret].
Proof.
  refine (proj2 (abort_makes_no_per_event_call shortHandlers loader ()
                   [raw "{a}"; raw "{b}"; raw "{c}"] false None
                   (lengthMismatch 2 3) _)).
  vm_compute. reflexivity.
Defined.

(** X4 on the bench: a batch of one valid event. *)
Lemma state_check_follows_auth_chain_check_witness :
  exists before' c,
    take 2 (calls (loadAndVerify handlers [raw "{ok}"]))
      = before' ++ [@AuthChainCall types tt (Headered "{ok}" "10")%string tt c] /\
    (c = None \/
     Headered "{ok}" "10" = Headered zeroEvent "10")%string.
Proof.
  refine (state_check_follows_auth_chain_check handlers loader ()
            [raw "{ok}"] false
            (take 2 (calls (loadAndVerify handlers [raw "{ok}"]))) []
            () () (Headered "{ok}" "10")%string "${ok}"%string true None _).
  vm_compute. reflexivity.
Defined.

(** X5 on the bench: two valid events. *)
Lemma all_clear_all_accepted_witness :
  result (loadAndVerify handlers [raw "{a}"; raw "{b}"])
  = Some (Some [accepted (Headered "{a}" "10");
                accepted (Headered "{b}" "10")]%string,
          None).
Proof.
  refine (all_clear_all_accepted handlers loader () [raw "{a}"; raw "{b}"]
            false _ _).
  - repeat constructor.
  - vm_compute. repeat constructor.
Defined.

(** X6 on the bench: an event that only the state check rejects. *)
Lemma first_rejection_wins_witness :
  [rejected "not allowed by state"%string] !! 0
  = Some (rejected "not allowed by state"%string).
Proof.
  refine (first_rejection_wins handlers loader () [raw "{forbidden}"] false
            _ None 0 (raw "{forbidden}")
            None None (Some "not allowed by state"%string) _ _ _ _ _ _);
    try (vm_compute; reflexivity).
  - eexists _, _, _, _, _. split; [vm_compute; apply list_elem_of_here|].
    reflexivity.
  - intros ctx pr c' Hin. whichever_call Hin.
  - intros ctx sp id strict s' Hin. whichever_call Hin.
Defined.

(** X7 on the bench: two messages that are not JSON, each with its own
    pair of checks. *)
Lemma unparsable_messages_are_still_checked_witness :
  exists events ret (segments : list (list Call)),
    calls (loadAndVerify handlers [raw "garbage"; raw "junk"])
      = @SignaturesCall types tt events tt ret :: concat segments /\
    length segments = 2 /\
    forall i rawEv e,
      [raw "garbage"; raw "junk"] !! i = Some rawEv ->
      parseError loader rawEv = Some e ->
      exists c s,
        segments !! i =
          Some [@AuthChainCall types tt (Headered zeroEvent "10"%string) tt c;
                @AuthRulesAtStateCall types tt tt
                   (Headered zeroEvent "10"%string)
                   (EventID (Headered zeroEvent "10"%string)) true s].
Proof.
  refine (unparsable_messages_are_still_checked handlers loader ()
            [raw "garbage"; raw "junk"] false
            [accepted (Headered zeroEvent "10"%string);
             accepted (Headered zeroEvent "10"%string)] None _).
  vm_compute. reflexivity.
Defined.

(** X8 on the bench: of a valid event, a forged one and a message that is
    not JSON, the first and the last have their auth chain checked. *)
Lemma auth_chain_checks_in_input_order_witness :
  omap authChainChecked
       (calls (loadAndVerify handlers
                 [raw "{ok}"; raw "{forged}"; raw "garbage"]))
  = [Headered "{ok}" "10"; Headered zeroEvent "10"]%string.
Proof.
  refine (auth_chain_checks_in_input_order handlers loader ()
            [raw "{ok}"; raw "{forged}"; raw "garbage"] false
            _ None () _ ()
            [None; Some "bad signature"%string;
             Some "event is missing signatures"%string] None _ _);
    vm_compute; reflexivity.
Defined.

End FurtherOnTheBench.
